(** * hwe.data.processor: a shallow embedding of [DocumentProcessor]

    The development follows [src/hwe/data/processor.py] method by method.

    - Python [str] values are sequences of characters; a character is an
      [ascii], read as the Latin-1 code point of the same number.
    - The classes [\w] and [\s], the anchors [\b] and [$] and the
      look-behind of the two regular expressions of the module are run by
      a small backtracking matcher ([Re]).
    - Exceptions are values of [PyExn]; a method is a function from the
      object and the world to an outcome, the object and the world.
    - What the module imports and does not define is a parameter: the
      stopword table is a section variable, the JSON parser and the
      extraction helper are fields of [Imports], the lexical database of
      [WordNet], the embedding index of [VectorStore].  The text splitter
      of the imported library is followed step by step in [LangChain]. *)

From Stdlib Require Import List ZArith NArith Ascii Bool Lia Arith Sorted.
From Stdlib Require String.
Import ListNotations String.StringSyntax.
Delimit Scope string_scope with string.

(* ------------------------------------------------------------------ *)
(** ** Text *)

Module Text.

Definition pystr := list ascii.

(** A literal: [str] of a Rocq string is the Python string with the same
    characters. *)
Definition str (s : String.string) : pystr := String.list_ascii_of_string s.
Arguments str s%_string.

Definition code (c : ascii) : N := N_of_ascii c.

Fixpoint eqb (a b : pystr) : bool :=
  match a, b with
  | [], [] => true
  | x :: a', y :: b' => Ascii.eqb x y && eqb a' b'
  | _, _ => false
  end.

Definition eq_dec : forall a b : pystr, {a = b} + {a <> b} :=
  list_eq_dec ascii_dec.

Definition newline : ascii := ascii_of_N 10.
Definition period : ascii := ascii_of_N 46.
Definition dquote : ascii := ascii_of_N 34.
Definition apostrophe : ascii := ascii_of_N 39.

(** A literal for JSON texts, written with an apostrophe wherever the text
    has a double quote. *)
Definition js (s : String.string) : pystr :=
  map (fun c => if Ascii.eqb c apostrophe then dquote else c) (str s).
Arguments js s%_string.

Definition between (lo hi n : N) : bool := (N.leb lo n && N.leb n hi)%bool.

(** [str.isspace] on one character, which is also the class [\s] of [re]
    on [str] patterns: TAB..CR, FS..US, space, NEL and NBSP. *)
Definition isspace (c : ascii) : bool :=
  let n := code c in
  between 9 13 n || between 28 32 n || N.eqb n 133 || N.eqb n 160.

(** [str.isalnum] on one character of the Latin-1 range. *)
Definition isalnum (c : ascii) : bool :=
  let n := code c in
  between 48 57 n || between 65 90 n || between 97 122 n
  || N.eqb n 170 || between 178 179 n || N.eqb n 181
  || between 185 186 n || between 188 190 n
  || between 192 214 n || between 216 246 n || between 248 255 n.

(** The class [\w] of [re]: alphanumeric or the underscore. *)
Definition isword (c : ascii) : bool := isalnum c || N.eqb (code c) 95.

(** [str.lower] on one character of the Latin-1 range. *)
Definition lower_char (c : ascii) : ascii :=
  let n := code c in
  if between 65 90 n || between 192 214 n || between 216 222 n
  then ascii_of_N (n + 32) else c.

Definition lower (s : pystr) : pystr := map lower_char s.

(** [sep.join(parts)] *)
Fixpoint join (sep : pystr) (parts : list pystr) : pystr :=
  match parts with
  | [] => []
  | [p] => p
  | p :: rest => p ++ sep ++ join sep rest
  end.

(** [s.startswith(p)] *)
Fixpoint startswith (p s : pystr) : bool :=
  match p, s with
  | [], _ => true
  | x :: p', y :: s' => Ascii.eqb x y && startswith p' s'
  | _ :: _, [] => false
  end.

(** [p in s] for two strings: [p] occurs in [s] at some offset. *)
Fixpoint contains (p s : pystr) : bool :=
  startswith p s ||
  match s with
  | [] => false
  | _ :: s' => contains p s'
  end.

(** [s.lstrip()], [s.rstrip()] and [s.strip()] with no argument. *)
Fixpoint lstrip (s : pystr) : pystr :=
  match s with
  | c :: s' => if isspace c then lstrip s' else s
  | [] => []
  end.

Definition rstrip (s : pystr) : pystr := rev (lstrip (rev s)).

Definition strip (s : pystr) : pystr := rstrip (lstrip s).

End Text.

Import Text.

(* ------------------------------------------------------------------ *)
(** ** The regular expressions of the module *)

Module Re.

(** The constructs that occur in [r'\b\w{3,}\b'] and [r'(?<=\.)\s+$']. *)
Inductive atom : Type :=
| WordBoundary                                (* \b *)
| LookBehind (c : ascii)                      (* (?<=c) *)
| Repeat (cls : ascii -> bool) (min : nat)    (* cls{min,}, greedy *)
| EndOfLine.                                  (* $ under re.MULTILINE *)

Definition pattern := list atom.

Definition isword_opt (c : option ascii) : bool :=
  match c with Some x => isword x | None => false end.

(** [cls{min,}] followed by the continuation [k]: take one more character
    first, and give it back when the rest of the pattern fails. *)
Fixpoint repeat_match (cls : ascii -> bool)
    (k : option ascii -> pystr -> option (pystr * pystr))
    (min : nat) (prev : option ascii) (s : pystr) : option (pystr * pystr) :=
  let stop := match min with O => k prev s | S _ => None end in
  match s with
  | c :: s' =>
      if cls c then
        match repeat_match cls k (pred min) (Some c) s' with
        | Some (m, r) => Some (c :: m, r)
        | None => stop
        end
      else stop
  | [] => stop
  end.

(** A match of [p] that starts here: [prev] is the character before the
    position, [s] the text from the position on.  The result is the matched
    text and what follows it. *)
Fixpoint match_here (p : pattern) : option ascii -> pystr -> option (pystr * pystr) :=
  match p with
  | [] => fun _ s => Some ([], s)
  | a :: p' =>
      let k := match_here p' in
      match a with
      | WordBoundary => fun prev s =>
          if xorb (isword_opt prev) (isword_opt (hd_error s)) then k prev s else None
      | LookBehind c => fun prev s =>
          match prev with
          | Some d => if Ascii.eqb d c then k prev s else None
          | None => None
          end
      | Repeat cls min => repeat_match cls k min
      | EndOfLine => fun prev s =>
          match s with
          | [] => k prev s
          | c :: _ => if Ascii.eqb c newline then k prev s else None
          end
      end
  end.

(** The text cut into the matches of [p], leftmost first and not
    overlapping, and the characters between them. *)
Inductive segment : Type :=
| Lit (c : ascii)
| Match (m : pystr).

(** [skip] counts the characters of the current match still to pass.  Both
    patterns of the module consume a character, so the rule of [re] for
    empty matches is never needed: an empty match is passed over. *)
Fixpoint scan (p : pattern) (skip : nat) (prev : option ascii) (s : pystr)
  : list segment :=
  match s with
  | [] => []
  | c :: s' =>
      match skip with
      | S n => scan p n (Some c) s'
      | O =>
          match match_here p prev s with
          | Some (x :: m', _) => Match (x :: m') :: scan p (length m') (Some c) s'
          | _ => Lit c :: scan p 0 (Some c) s'
          end
      end
  end.

(** The character before the position reached after [m], when [prev] was
    the character before [m]. *)
Definition last_char (prev : option ascii) (m : pystr) : option ascii :=
  match rev m with c :: _ => Some c | [] => prev end.

(** [re.findall(p, s)] for a pattern without groups. *)
Definition findall (p : pattern) (s : pystr) : list pystr :=
  flat_map (fun g => match g with Match m => [m] | Lit _ => [] end)
           (scan p 0 None s).

(** [re.sub(p, repl, s)] for a replacement without group references. *)
Definition sub (p : pattern) (repl : pystr) (s : pystr) : pystr :=
  flat_map (fun g => match g with Match _ => repl | Lit c => [c] end)
           (scan p 0 None s).

End Re.

(* ------------------------------------------------------------------ *)
(** ** [collections.Counter] *)

Module Counter.

(** A [Counter] is a [dict]: its keys are distinct and [items()] lists them
    in the order in which they were first inserted. *)
Definition t := list (pystr * Z).

(** [c[w] += 1] *)
Fixpoint incr (w : pystr) (c : t) : t :=
  match c with
  | [] => [(w, 1%Z)]
  | (k, n) :: c' =>
      if Text.eqb k w then (k, (n + 1)%Z) :: c' else (k, n) :: incr w c'
  end.

(** [Counter(tokens)] *)
Definition of_list (tokens : list pystr) : t :=
  fold_left (fun c w => incr w c) tokens [].

(** [del c[w]], which [Counter] allows for a key that is absent. *)
Fixpoint del (w : pystr) (c : t) : t :=
  match c with
  | [] => []
  | (k, n) :: c' => if Text.eqb k w then c' else (k, n) :: del w c'
  end.

Definition items (c : t) : list (pystr * Z) := c.

Definition keys (c : t) : list pystr := map fst c.

Definition get (w : pystr) (c : t) : Z :=
  match find (fun kn => Text.eqb (fst kn) w) c with
  | Some (_, n) => n
  | None => 0%Z
  end.

End Counter.

(* ------------------------------------------------------------------ *)
(** ** [DocumentProcessor.__word_frequency] *)

(** [r'\b\w{3,}\b'] *)
Definition word_pattern : Re.pattern :=
  [Re.WordBoundary; Re.Repeat isword 3; Re.WordBoundary].

(** [RegexpTokenizer(pattern).tokenize(text)]: with the default
    [gaps=False] the tokens are [findall] of the pattern. *)
Definition tokenize (p : Re.pattern) (text : pystr) : list pystr :=
  Re.findall p text.

Section WordFrequency.

(** [stopwords.words('english')], a table of the NLTK corpus; the set built
    from it is walked in some order, here the order of the list. *)
Variable english_stopwords : list pystr.

Definition __word_frequency (text : pystr) (top_freq : Z) : list pystr :=
  let stopwords_set := english_stopwords in
  let tokens := tokenize word_pattern (lower text) in
  let word_counts := Counter.of_list tokens in
  let word_counts :=
    fold_left (fun c stopword => Counter.del stopword c) stopwords_set word_counts in
  map fst (filter (fun wc => Z.eqb (snd wc) top_freq) (Counter.items word_counts)).

End WordFrequency.

(** The default of the parameter [top_freq]. *)
Definition top_freq_default : Z := 20.


(* ------------------------------------------------------------------ *)
(** ** Python values, exceptions and the world *)

Module Py.

(** The values that [json.load] builds, which are also the values the
    module stores in [self.docs]. *)
#[warnings="-register-all"]
Inductive value : Type :=
| VNone
| VBool (b : bool)
| VInt (z : Z)
| VFloat (literal : pystr)
| VStr (s : pystr)
| VList (l : list value)
| VDict (items : list (pystr * value)).

(** The key of a failed [dict] lookup. *)
Inductive subscript : Type :=
| KStr (s : pystr)
| KSlice (stop : Z).                 (* slice(None, stop, None) *)

(** The exceptions the module raises or lets through.  An exception raised
    in an [except] block carries the one being handled as its context. *)
#[warnings="-register-all"]
Inductive PyExn : Type :=
| FileNotFoundError (msg : pystr)
| IsADirectoryError (path : pystr)
| JSONDecodeError (msg : pystr)
| ValueError (msg : pystr) (context : option PyExn)
| KeyError (key : subscript)
| TypeError
| LibraryError (name : pystr).       (* raised inside an imported library *)

Inductive outcome (A : Type) : Type :=
| Return (a : A)
| Raise (e : PyExn).
Arguments Return {A} a.
Arguments Raise {A} e.

Definition is_JSONDecodeError (e : PyExn) : bool :=
  match e with JSONDecodeError _ => true | _ => false end.



(** A [langchain.schema.Document]. *)
Record Document : Type := mkDocument {
  page_content : pystr;
  metadata : list (pystr * value)
}.

Inductive level : Type := INFO | WARNING | ERROR.

(** What a log record carries: a formatted message, or an exception
    object passed as the message. *)
Inductive log_message : Type :=
| LogText (msg : pystr)
| LogExn (e : PyExn).

(** What the module does to the outside, in the order it does it. *)
Inductive event : Type :=
| Logged (lv : level) (msg : log_message)
| Extracted (file_path : pystr)          (* NewsPaperExtractorXml.from_xml *)
| Indexed (docs : list Document)         (* Chroma.from_documents(documents=docs, ...) *)
| Queried (query : pystr) (k : Z).       (* retriever.get_relevant_documents *)

Inductive node : Type :=
| File (contents : pystr)
| Dir.

Definition filesystem := pystr -> option node.
Definition environ := pystr -> option pystr.

Record World : Type := mkWorld {
  fs : filesystem;
  env : environ;
  trace : list event
}.

Definition emit (e : event) (w : World) : World :=
  mkWorld (fs w) (env w) (trace w ++ [e]).

Definition set_fs (f : filesystem) (w : World) : World :=
  mkWorld f (env w) (trace w).

(** [os.path.exists(path)] *)
Definition path_exists (w : World) (path : pystr) : bool :=
  match fs w path with Some _ => true | None => false end.

(** [open(path, 'r')] followed by reading the whole file. *)
Definition open_read (w : World) (path : pystr) : outcome pystr :=
  match fs w path with
  | Some (File contents) => Return contents
  | Some Dir => Raise (IsADirectoryError path)
  | None => Raise (FileNotFoundError (str "No such file or directory"))
  end.

(** [os.getenv(name)] *)
Definition getenv (w : World) (name : pystr) : option pystr := env w name.

(** [d[key]] on the pairs of a JSON object: the last pair of a repeated
    key is the one [json.load] keeps. *)
Fixpoint dict_get (key : pystr) (items : list (pystr * value)) : option value :=
  match items with
  | [] => None
  | (k, v) :: rest =>
      match dict_get key rest with
      | Some v' => Some v'
      | None => if Text.eqb k key then Some v else None
      end
  end.

End Py.

Import Py.

(* ------------------------------------------------------------------ *)
(** ** [os.path] and [str.replace] *)

Module OsPath.

Definition slash : ascii := ascii_of_N 47.

(** [posixpath.basename]: what follows the last slash. *)
Fixpoint basename (p : pystr) : pystr :=
  match p with
  | [] => []
  | c :: p' =>
      if existsb (Ascii.eqb slash) p' then basename p'
      else if Ascii.eqb c slash then p' else p
  end.

(** [s.endswith('/')] *)
Definition ends_with_slash (a : pystr) : bool :=
  match rev a with c :: _ => Ascii.eqb c slash | [] => false end.

(** [posixpath.join(a, b)] *)
Definition join (a b : pystr) : pystr :=
  if startswith [slash] b then b
  else if (match a with [] => true | _ => false end) || ends_with_slash a then a ++ b
  else a ++ [slash] ++ b.

(** [s.replace(old, new)] for a non-empty [old]: every occurrence, leftmost
    first and not overlapping.  [skip] counts the characters of the current
    occurrence still to pass. *)
Fixpoint replace_from (old new : pystr) (skip : nat) (s : pystr) : pystr :=
  match s with
  | [] => []
  | c :: s' =>
      match skip with
      | S n => replace_from old new n s'
      | O =>
          if startswith old s then new ++ replace_from old new (length old - 1) s'
          else c :: replace_from old new 0 s'
      end
  end.

Definition replace (old new s : pystr) : pystr := replace_from old new 0 s.

End OsPath.

(* ------------------------------------------------------------------ *)
(** ** Methods: state and exceptions *)

(** The attributes of a [DocumentProcessor]. *)
Record DocumentProcessor : Type := mkProcessor {
  file_path : pystr;
  docs : list value
}.

(** A method body: it reads and writes [self] and the world and returns or
    raises. *)
Definition M (A : Type) : Type :=
  DocumentProcessor -> World -> outcome A * DocumentProcessor * World.

Definition ret {A} (a : A) : M A := fun self w => (Return a, self, w).

Definition raise {A} (e : PyExn) : M A := fun self w => (Raise e, self, w).

Definition bind {A B} (m : M A) (f : A -> M B) : M B :=
  fun self w =>
    match m self w with
    | (Return a, self', w') => f a self' w'
    | (Raise e, self', w') => (Raise e, self', w')
    end.

(** [try: body  except <class>: handler]; an exception of another class
    passes through. *)
Definition try_except {A} (body : M A) (catches : PyExn -> bool)
    (handler : PyExn -> M A) : M A :=
  fun self w =>
    match body self w with
    | (Return a, self', w') => (Return a, self', w')
    | (Raise e, self', w') =>
        if catches e then handler e self' w' else (Raise e, self', w')
    end.

Definition get_self : M DocumentProcessor := fun self w => (Return self, self, w).
Definition get_world : M World := fun self w => (Return w, self, w).
Definition set_docs (d : list value) : M unit :=
  fun self w => (Return tt, mkProcessor (file_path self) d, w).
Definition do_emit (e : event) : M unit :=
  fun self w => (Return tt, self, emit e w).
Definition lift {A} (o : outcome A) : M A := fun self w => (o, self, w).

Declare Scope py_scope.
Delimit Scope py_scope with py.
Notation "x <- m ;; k" := (bind m (fun x => k))
  (at level 61, m at next level, right associativity) : py_scope.
Notation "m ;;; k" := (bind m (fun _ => k))
  (at level 61, right associativity) : py_scope.

(* ------------------------------------------------------------------ *)
(** ** What the module imports *)

(** [json.load], the extraction helper [NewsPaperExtractorXml.from_xml] of
    the sibling module [extraction], and one fact about the interpreter:
    whether a [slice] can be hashed (it can from Python 3.12 on), which
    decides the class of the error of [d[:n]] on a [dict]. *)
Class Imports : Type := {
  json_load : pystr -> outcome value;
  from_xml : pystr -> environ -> filesystem -> outcome unit * filesystem;
  slice_hashable : bool
}.

(** [nltk.corpus.wordnet] *)
Class WordNet : Type := {
  synset : Type;
  lemma : Type;
  wn_synsets : pystr -> list synset;
  synset_hyponyms : synset -> list synset;
  synset_lemmas : synset -> list lemma;
  lemma_name : lemma -> pystr
}.

(** [OpenAIEmbeddings] and [Chroma]: the embeddings are constructed from an
    API key, [None] when the variable is not set, and the constructor may
    raise; an index is built from documents and embeddings, and answers a
    query with at most [k] documents. *)
Class VectorStore : Type := {
  embeddings : Type;
  index : Type;
  OpenAIEmbeddings : option pystr -> outcome embeddings;
  from_documents : list Document -> embeddings -> outcome index;
  similarity_search : index -> pystr -> Z -> outcome (list Document)
}.

(* ------------------------------------------------------------------ *)
(** ** [DocumentProcessor.__init__] *)

(** While [__init__] runs an attribute may not be set yet. *)
Record attributes : Type := mkAttributes {
  attr_file_path : option pystr;
  attr_docs : option (list value)
}.

Definition no_attributes : attributes := mkAttributes None None.

Definition _openai_token_limit : Z := 150000.

Definition not_found_message (file_path : pystr) : pystr :=
  str "File " ++ file_path ++ str " does not exist.".

Definition warning_message (file_path : pystr) : pystr :=
  str "File path " ++ file_path
  ++ str " does not come from the post_process_data directory."
  ++ str "The file will be processed first.".

Section Init.
Context {imports : Imports}.

Definition __init__ (file_path : pystr) (w : World) : outcome unit * attributes * World :=
  if negb (path_exists w file_path) then
    (Raise (FileNotFoundError (not_found_message file_path)), no_attributes, w)
  else
    let self := mkAttributes (Some file_path) (Some []) in
    if negb (contains (str "post_process_data") file_path) then
      let w := emit (Logged WARNING (LogText (warning_message file_path))) w in
      let w := emit (Extracted file_path) w in
      match from_xml file_path (env w) (fs w) with
      | (Raise e, fs') => (Raise e, self, set_fs fs' w)
      | (Return _, fs') =>
          let w := set_fs fs' w in
          let file_name :=
            OsPath.replace (str ".xml") (str ".json") (OsPath.basename file_path) in
          match getenv w (str "COMPILED_DOCS_PATH") with
          | Some dir =>
              (Return tt, mkAttributes (Some (OsPath.join dir file_name)) (Some []), w)
          | None => (Raise TypeError, self, w)     (* os.path.join(None, ...) *)
          end
      end
    else (Return tt, self, w).

(** [DocumentProcessor(file_path)]: the object when [__init__] returns. *)
Definition construct (file_path : pystr) (w : World)
  : outcome DocumentProcessor * World :=
  match __init__ file_path w with
  | (Return _, mkAttributes (Some p) (Some d), w') => (Return (mkProcessor p d), w')
  | (Return _, _, w') => (Raise (LibraryError (str "AttributeError")), w')
  | (Raise e, _, w') => (Raise e, w')
  end.

End Init.

(* ------------------------------------------------------------------ *)
(** ** [DocumentProcessor.__compile_docs] *)

(** [r'(?<=\\.)\\s+$'], used with [re.MULTILINE]. *)
Definition pattern : Re.pattern :=
  [Re.LookBehind period; Re.Repeat isspace 1; Re.EndOfLine].

Definition invalid_json_message (file_path : pystr) : pystr :=
  str "Error: " ++ file_path ++ str " is not a valid json file.".

(** The keys of a [dict], each once, in the order of first insertion. *)
Fixpoint dict_keys (items : list (pystr * value)) : list pystr :=
  match items with
  | [] => []
  | (k, _) :: rest =>
      k :: filter (fun k' => negb (Text.eqb k' k)) (dict_keys rest)
  end.

(** [for art in articles]: what the loop walks over. *)
Definition iterate (articles : value) : outcome (list value) :=
  match articles with
  | VList l => Return l
  | VDict items => Return (map VStr (dict_keys items))
  | VStr s => Return (map (fun c => VStr [c]) s)
  | _ => Raise TypeError
  end.

(** [art['fulltext']] *)
Definition subscript_fulltext (art : value) : outcome value :=
  match art with
  | VDict items =>
      match dict_get (str "fulltext") items with
      | Some v => Return v
      | None => Raise (KeyError (KStr (str "fulltext")))
      end
  | _ => Raise TypeError
  end.

(** [[f(x) for x in l]]: the elements in order, up to the first that
    raises. *)
Fixpoint comprehension {A B} (f : A -> outcome B) (l : list A) : outcome (list B) :=
  match l with
  | [] => Return []
  | x :: l' =>
      match f x with
      | Raise e => Raise e
      | Return y =>
          match comprehension f l' with
          | Raise e => Raise e
          | Return ys => Return (y :: ys)
          end
      end
  end.

(** ['.'.join(docs)] takes strings only. *)
Definition as_str (v : value) : outcome pystr :=
  match v with
  | VStr s => Return s
  | _ => Raise TypeError
  end.

Section CompileDocs.
Context {imports : Imports}.
Local Open Scope py_scope.

(** [v[:n]] *)
Definition slice_to (n : Z) (v : value) : outcome value :=
  match v with
  | VStr s => Return (VStr (firstn (Z.to_nat n) s))
  | VList l => Return (VList (firstn (Z.to_nat n) l))
  | VDict _ => Raise (if slice_hashable then KeyError (KSlice n) else TypeError)
  | _ => Raise TypeError
  end.

(** [art['fulltext'][:self._openai_token_limit]] *)
Definition truncated_fulltext (art : value) : outcome value :=
  match subscript_fulltext art with
  | Return v => slice_to _openai_token_limit v
  | Raise e => Raise e
  end.

(** The body of the [try]: [with open(...) as f: articles = json.load(f)]. *)
Definition load_articles : M value :=
  self <- get_self ;;
  w <- get_world ;;
  contents <- lift (open_read w (file_path self)) ;;
  lift (json_load contents).

(** The body of [except json.JSONDecodeError as e]. *)
Definition on_decode_error (e : PyExn) : M value :=
  do_emit (Logged ERROR (LogExn e)) ;;;
  self <- get_self ;;
  raise (ValueError (invalid_json_message (file_path self)) (Some e)).

Definition __compile_docs : M pystr :=
  articles <- try_except load_articles is_JSONDecodeError on_decode_error ;;
  elements <- lift (iterate articles) ;;
  d <- lift (comprehension truncated_fulltext elements) ;;
  set_docs d ;;;
  self <- get_self ;;
  parts <- lift (comprehension as_str (docs self)) ;;
  let txt := Text.join (str ".") parts in
  let txt := Re.sub pattern [] txt in
  ret txt.

End CompileDocs.

(* ------------------------------------------------------------------ *)
(** ** [DocumentProcessor.extract_hyponyms] *)

Section ExtractHyponyms.
Context {wn : WordNet}.

(** The three nested loops; each [hyponyms += [lemma.name()]] appends at
    the end. *)
Definition extract_hyponyms (word : pystr) : list pystr :=
  let synsets := wn_synsets word in
  fold_left (fun hyponyms synset =>
    fold_left (fun hyponyms hyponym =>
      fold_left (fun hyponyms lemma => hyponyms ++ [lemma_name lemma])
                (synset_lemmas hyponym) hyponyms)
              (synset_hyponyms synset) hyponyms)
    synsets [].

End ExtractHyponyms.

(* ------------------------------------------------------------------ *)
(** ** [langchain.text_splitter.CharacterTextSplitter] *)

(** [retrieve_docs] hands the compiled text to the splitter of the
    imported library.  This module follows the library's [split_text],
    [_split_text_with_regex], [_merge_splits] and [_join_docs] as they are
    in the releases that accept [add_start_index].  The library's own
    warning about an oversized chunk goes to its logger and is left out. *)
Module LangChain.

Record CharacterTextSplitter : Type := mkSplitter {
  separator : pystr;
  chunk_size : Z;
  chunk_overlap : Z;
  add_start_index : bool
}.

Definition len (s : pystr) : Z := Z.of_nat (length s).

(** [text.split(separator)] for a non-empty separator; [skip] counts the
    characters of the current separator still to pass, [piece] is the piece
    read so far. *)
Fixpoint split_from (sep : pystr) (skip : nat) (piece : pystr) (s : pystr)
  : list pystr :=
  match s with
  | [] => [piece]
  | c :: s' =>
      match skip with
      | S n => split_from sep n piece s'
      | O =>
          if startswith sep s then piece :: split_from sep (length sep - 1) [] s'
          else split_from sep 0 (piece ++ [c]) s'
      end
  end.

Definition nonempty (s : pystr) : bool :=
  match s with [] => false | _ => true end.

(** [_split_text_with_regex(text, separator, keep_separator=False)]: the
    pieces between the separators, the empty ones dropped; with an empty
    separator, the characters. *)
Definition split_text_with_regex (text separator : pystr) : list pystr :=
  let splits :=
    match separator with
    | [] => map (fun c => [c]) text
    | _ => split_from separator 0 [] text
    end in
  filter nonempty splits.

(** [_join_docs]: [None] when nothing but white space is left. *)
Definition join_docs (docs : list pystr) (separator : pystr) : option pystr :=
  let text := strip (Text.join separator docs) in
  match text with
  | [] => None
  | _ => Some text
  end.

Definition append_doc (docs : list pystr) (doc : option pystr) : list pystr :=
  match doc with
  | Some d => docs ++ [d]
  | None => docs
  end.

Section Merge.
Variable splitter : CharacterTextSplitter.
Variable separator_len : Z.

Definition sep_if (b : bool) : Z := if b then separator_len else 0%Z.

(** The inner [while]: drop pieces from the front of [current_doc] while
    it is longer than the overlap, or still too long to take the next
    piece.  [current_doc[0]] on an empty list is an [IndexError]. *)
Fixpoint keep_popping (_len total : Z) (current_doc : list pystr)
  : outcome (Z * list pystr) :=
  if (Z.gtb total (chunk_overlap splitter)
      || (Z.gtb (total + _len + sep_if (Nat.ltb 0 (length current_doc)))
                (chunk_size splitter)
          && Z.gtb total 0))%bool
  then
    match current_doc with
    | [] => Raise (LibraryError (str "IndexError"))
    | first :: rest =>
        keep_popping _len
          (total - (len first + sep_if (Nat.ltb 1 (length current_doc))))%Z rest
    end
  else Return (total, current_doc).

(** The [for d in splits] loop of [_merge_splits] and what follows it. *)
Fixpoint merge_loop (sep : pystr) (splits : list pystr)
    (docs current_doc : list pystr) (total : Z) : outcome (list pystr) :=
  match splits with
  | [] => Return (append_doc docs (join_docs current_doc sep))
  | d :: splits' =>
      let _len := len d in
      let add (docs current_doc : list pystr) (total : Z) :=
        let current_doc := current_doc ++ [d] in
        merge_loop sep splits' docs current_doc
          (total + (_len + sep_if (Nat.ltb 1 (length current_doc))))%Z in
      if Z.gtb (total + _len + sep_if (Nat.ltb 0 (length current_doc)))
               (chunk_size splitter)
      then
        if Nat.ltb 0 (length current_doc) then
          let docs := append_doc docs (join_docs current_doc sep) in
          match keep_popping _len total current_doc with
          | Raise e => Raise e
          | Return (total, current_doc) => add docs current_doc total
          end
        else add docs current_doc total
      else add docs current_doc total
  end.

End Merge.

Definition merge_splits (splitter : CharacterTextSplitter)
    (splits : list pystr) (sep : pystr) : outcome (list pystr) :=
  merge_loop splitter (len sep) sep splits [] [] 0.

(** [CharacterTextSplitter.split_text] with [keep_separator=False]. *)
Definition split_text (splitter : CharacterTextSplitter) (text : pystr)
  : outcome (list pystr) :=
  let splits := split_text_with_regex text (separator splitter) in
  merge_splits splitter splits (separator splitter).

End LangChain.

(* ------------------------------------------------------------------ *)
(** ** [DocumentProcessor.__v_store] and [retrieve_docs] *)

Definition top_k_default : Z := 6.

(** [CharacterTextSplitter(chunk_size=1000, chunk_overlap=200,
    add_start_index=True)]; the separator is the default of the class. *)
Definition splitter : LangChain.CharacterTextSplitter :=
  LangChain.mkSplitter [newline; newline] 1000 200 true.

Section Retrieval.
Context {imports : Imports} {store : VectorStore}.
Local Open Scope py_scope.

(** The retriever: the index and its [search_kwargs]. *)
Definition retriever : Type := (index * Z)%type.

(** The arguments of [Chroma.from_documents] are evaluated before the call
    is made: when [OpenAIEmbeddings(...)] raises, the index is not asked
    for. *)
Definition __v_store (docs : list Document) (top_k : Z) : M retriever :=
  do_emit (Logged INFO (LogText (str "Generating vector store..."))) ;;;
  w <- get_world ;;
  embedding <- lift (OpenAIEmbeddings (getenv w (str "OPENAI_API_KEY"))) ;;
  do_emit (Indexed docs) ;;;
  vector_store <- lift (from_documents docs embedding) ;;
  ret (vector_store, top_k).

Definition get_relevant_documents (r : retriever) (query : pystr)
  : M (list Document) :=
  do_emit (Queried query (snd r)) ;;;
  lift (similarity_search (fst r) query (snd r)).

Definition retrieve_docs (query : pystr) : M (list Document) :=
  txt <- __compile_docs ;;
  chunks <- lift (LangChain.split_text splitter txt) ;;
  let docs := map (fun doc => mkDocument doc []) chunks in
  retriever <- __v_store (firstn 2 docs) top_k_default ;;
  get_relevant_documents retriever query.

End Retrieval.

(* ------------------------------------------------------------------ *)
(** ** Concrete imports, to run the methods on examples *)

(** A parser for the fragment of JSON with one-letter escapes and without
    fractions. *)
Module SimpleJson.
Local Open Scope char_scope.

Definition is_ws (c : ascii) : bool :=
  Ascii.eqb c " " || Ascii.eqb c newline
  || Ascii.eqb c (ascii_of_N 9) || Ascii.eqb c (ascii_of_N 13).

Fixpoint skip_ws (s : pystr) : pystr :=
  match s with
  | c :: s' => if is_ws c then skip_ws s' else s
  | [] => []
  end.

Definition is_digit (c : ascii) : bool := between 48 57 (code c).

Fixpoint digits (acc : Z) (s : pystr) : Z * pystr :=
  match s with
  | c :: s' =>
      if is_digit c then digits (10 * acc + Z.of_N (code c - 48)) s' else (acc, s)
  | [] => (acc, [])
  end.

(** The character that a one-letter escape stands for. *)
Definition unescape (e : ascii) : option ascii :=
  if Ascii.eqb e "n" then Some newline
  else if Ascii.eqb e "t" then Some (ascii_of_N 9)
  else if Ascii.eqb e "r" then Some (ascii_of_N 13)
  else if Ascii.eqb e dquote || Ascii.eqb e "\" || Ascii.eqb e "/" then Some e
  else None.

(** The characters up to the closing quote. *)
Fixpoint string_body (s : pystr) : option (pystr * pystr) :=
  match s with
  | [] => None
  | c :: s' =>
      if Ascii.eqb c dquote then Some ([], s')
      else if N.ltb (code c) 32 then None
      else if Ascii.eqb c "\" then
        match s' with
        | e :: s'' =>
            match unescape e, string_body s'' with
            | Some x, Some (body, rest) => Some (x :: body, rest)
            | _, _ => None
            end
        | [] => None
        end
      else match string_body s' with
           | Some (body, rest) => Some (c :: body, rest)
           | None => None
           end
  end.

Fixpoint parse_value (fuel : nat) (s : pystr) : option (value * pystr) :=
  match fuel with
  | O => None
  | S fuel' =>
      match skip_ws s with
      | [] => None
      | c :: r =>
          if Ascii.eqb c dquote then
            match string_body r with
            | Some (body, r') => Some (VStr body, r')
            | None => None
            end
          else
            match c :: r with
            | "n" :: "u" :: "l" :: "l" :: r => Some (VNone, r)
            | "t" :: "r" :: "u" :: "e" :: r => Some (VBool true, r)
            | "f" :: "a" :: "l" :: "s" :: "e" :: r => Some (VBool false, r)
            | "[" :: r =>
                match skip_ws r with
                | "]" :: r' => Some (VList [], r')
                | _ =>
                    match parse_elements fuel' r with
                    | Some (l, r') => Some (VList l, r')
                    | None => None
                    end
                end
            | "{" :: r =>
                match skip_ws r with
                | "}" :: r' => Some (VDict [], r')
                | _ =>
                    match parse_members fuel' r with
                    | Some (l, r') => Some (VDict l, r')
                    | None => None
                    end
                end
            | "-" :: c :: r =>
                if is_digit c then
                  let (n, r') := digits 0 (c :: r) in Some (VInt (- n), r')
                else None
            | c :: r =>
                if is_digit c then
                  let (n, r') := digits 0 (c :: r) in Some (VInt n, r')
                else None
            | [] => None
            end
      end
  end
with parse_elements (fuel : nat) (s : pystr) : option (list value * pystr) :=
  match fuel with
  | O => None
  | S fuel' =>
      match parse_value fuel' s with
      | Some (v, r) =>
          match skip_ws r with
          | "]" :: r' => Some ([v], r')
          | "," :: r' =>
              match parse_elements fuel' r' with
              | Some (l, r'') => Some (v :: l, r'')
              | None => None
              end
          | _ => None
          end
      | None => None
      end
  end
with parse_members (fuel : nat) (s : pystr) : option (list (pystr * value) * pystr) :=
  match fuel with
  | O => None
  | S fuel' =>
      match skip_ws s with
      | [] => None
      | c :: r =>
          if negb (Ascii.eqb c dquote) then None
          else
            match string_body r with
            | Some (key, r1) =>
                match skip_ws r1 with
                | ":" :: r2 =>
                    match parse_value fuel' r2 with
                    | Some (v, r3) =>
                        match skip_ws r3 with
                        | "}" :: r' => Some ([(key, v)], r')
                        | "," :: r' =>
                            match parse_members fuel' r' with
                            | Some (l, r'') => Some ((key, v) :: l, r'')
                            | None => None
                            end
                        | _ => None
                        end
                    | None => None
                    end
                | _ => None
                end
            | None => None
            end
      end
  end.

Definition loads (s : pystr) : outcome value :=
  match parse_value (2 * length s + 2) s with
  | Some (v, r) =>
      match skip_ws r with
      | [] => Return v
      | _ => Raise (JSONDecodeError (str "Extra data"))
      end
  | None => Raise (JSONDecodeError (str "Expecting value"))
  end.

End SimpleJson.

Module Examples.

(** An extraction that writes an empty array where [__init__] will look
    for the compiled file. *)
Definition write_empty_array (file_path : pystr) (e : environ) (f : filesystem)
  : outcome unit * filesystem :=
  match e (str "COMPILED_DOCS_PATH") with
  | Some dir =>
      let target :=
        OsPath.join dir
          (OsPath.replace (str ".xml") (str ".json") (OsPath.basename file_path)) in
      (Return tt, fun p => if Text.eqb p target then Some (File (str "[]")) else f p)
  | None => (Raise TypeError, f)
  end.

Definition imports : Imports := {|
  json_load := SimpleJson.loads;
  from_xml := write_empty_array;
  slice_hashable := false
|}.

(** A lexical database with three words. *)
Inductive toy_synset : Type := bird_n_01 | sparrow_n_01 | finch_n_01 | rock_n_01.

Definition wordnet : WordNet := {|
  synset := toy_synset;
  lemma := pystr;
  wn_synsets := fun w =>
    if Text.eqb w (str "bird") then [bird_n_01]
    else if Text.eqb w (str "rock") then [rock_n_01]
    else [];
  synset_hyponyms := fun s =>
    match s with
    | bird_n_01 => [sparrow_n_01; finch_n_01]
    | _ => []
    end;
  synset_lemmas := fun s =>
    match s with
    | bird_n_01 => [str "bird"]
    | sparrow_n_01 => [str "sparrow"; str "true_sparrow"]
    | finch_n_01 => [str "finch"]
    | rock_n_01 => [str "rock"; str "stone"]
    end;
  lemma_name := fun l => l
|}.

(** An index that keeps the documents and ranks first those that contain
    the query.  The embeddings are the API key: constructing them without
    a key fails, and embedding the documents with an empty key fails. *)
Definition substring_store : VectorStore := {|
  embeddings := pystr;
  index := list Document;
  OpenAIEmbeddings := fun key =>
    match key with
    | Some k => Return k
    | None => Raise (LibraryError (str "ValidationError"))
    end;
  from_documents := fun docs k =>
    match k with
    | [] => Raise (LibraryError (str "AuthenticationError"))
    | _ :: _ => Return docs
    end;
  similarity_search := fun ix query k =>
    let hit d := contains query (page_content d) in
    Return (firstn (Z.to_nat k) (filter hit ix ++ filter (fun d => negb (hit d)) ix))
|}.

Definition file_system (files : list (pystr * pystr)) : filesystem :=
  fun p =>
    match find (fun kv => Text.eqb (fst kv) p) files with
    | Some (_, contents) => Some (File contents)
    | None => None
    end.

Definition environment (vars : list (pystr * pystr)) : environ :=
  fun name =>
    match find (fun kv => Text.eqb (fst kv) name) vars with
    | Some (_, v) => Some v
    | None => None
    end.

Definition world (files vars : list (pystr * pystr)) : World :=
  mkWorld (file_system files) (environment vars) [].

(** One article of three paragraphs of 600 characters; the third starts
    with the word of the query. *)
Definition paragraph (c : ascii) : pystr := repeat c 600.

Definition three_paragraphs : pystr :=
  js "[{'fulltext': '"
  ++ paragraph "a" ++ str "\n\n" ++ paragraph "b" ++ str "\n\n"
  ++ str "needle" ++ paragraph "c" ++ js "'}]".

Definition three_paragraph_world : World :=
  world [(str "post_process_data/a.json", three_paragraphs)]
        [(str "OPENAI_API_KEY", str "sk")].

End Examples.

(* ------------------------------------------------------------------ *)
(** ** Vocabulary of the statements *)

Section AfterLoad.
Context {imports : Imports}.

(** What [__compile_docs] does once the articles are loaded. *)
Definition after_load (articles : value) : M pystr :=
  (elements <- lift (iterate articles) ;;
   d <- lift (comprehension truncated_fulltext elements) ;;
   set_docs d ;;;
   self <- get_self ;;
   parts <- lift (comprehension as_str (docs self)) ;;
   ret (Re.sub pattern [] (Text.join (str ".") parts)))%py.

End AfterLoad.



(** [$] under [re.MULTILINE]: the end of the text or a newline next. *)
Definition line_end (s : pystr) : bool :=
  match s with
  | [] => true
  | c :: _ => Ascii.eqb c newline
  end.

(** A greedy repetition followed by a test of what comes next. *)
Definition then_test (test : pystr -> bool)
  : option ascii -> pystr -> option (pystr * pystr) :=
  fun _ s => if test s then Some ([], s) else None.

(** The text with every match of the pattern taken out, read from a
    position whose previous character is [prev]. *)
Definition sub_from (prev : option ascii) (s : pystr) : pystr :=
  flat_map (fun g => match g with Re.Match _ => [] | Re.Lit c => [c] end)
           (Re.scan pattern 0 prev s).

(** [Strips prev s out]: [out] is [s] without some runs of white space,
    each of them right after a period and ending at a line end; [prev] is
    the character before [s]. *)
Inductive Strips : option ascii -> pystr -> pystr -> Prop :=
| Strips_nil prev : Strips prev [] []
| Strips_keep prev c s out :
    Strips (Some c) s out -> Strips prev (c :: s) (c :: out)
| Strips_drop m r out :
    m <> [] -> forallb isspace m = true -> line_end r = true ->
    Strips (Re.last_char (Some period) m) r out ->
    Strips (Some period) (m ++ r) out.

(** An article record: an object whose ['fulltext'] is the string [text]. *)
Definition article (art : value) (text : pystr) : Prop :=
  exists items, art = VDict items /\ dict_get (str "fulltext") items = Some (VStr text).

(** The vector store answers with documents of its index only. *)
Definition returns_indexed (store : VectorStore) : Prop :=
  forall docs embedding ix query k res,
    from_documents docs embedding = Return ix ->
    similarity_search ix query k = Return res ->
    incl res docs.

(** No match of the pattern starts anywhere in [s], read after [prev]. *)
Definition no_match_left (prev : option ascii) (s : pystr) : Prop :=
  forall p q, s = p ++ q -> Re.match_here pattern (Re.last_char prev p) q = None.

(** [R] is empty or starts with a character that is not white space. *)
Definition headed (R : pystr) : Prop :=
  R = [] \/ exists x R', R = x :: R' /\ isspace x = false.

(** The splitter seen through the groups of pieces it joins.  A window is
    the [current_doc] of [_merge_splits] at the moment it is joined into a
    chunk. *)
Module Windows.
Import LangChain.

(** The length of [separator.join(pieces)]. *)
Definition jlen (sep : pystr) (pieces : list pystr) : Z := len (Text.join sep pieces).

(** The windows that the loop of [_merge_splits] joins from here on: the
    same walk as [merge_loop], keeping each [current_doc] instead of its
    joined text. *)
Fixpoint windows_from (splitter : CharacterTextSplitter) (separator_len : Z)
    (splits current_doc : list pystr) (total : Z) : outcome (list (list pystr)) :=
  match splits with
  | [] => Return [current_doc]
  | d :: splits' =>
      let _len := len d in
      let add (current_doc : list pystr) (total : Z) :=
        let current_doc := current_doc ++ [d] in
        windows_from splitter separator_len splits' current_doc
          (total + (_len + sep_if separator_len (Nat.ltb 1 (length current_doc))))%Z in
      if Z.gtb (total + _len + sep_if separator_len (Nat.ltb 0 (length current_doc)))
               (chunk_size splitter)
      then
        if Nat.ltb 0 (length current_doc) then
          match keep_popping splitter separator_len _len total current_doc with
          | Raise e => Raise e
          | Return (total', current_doc') =>
              match add current_doc' total' with
              | Return ws => Return (current_doc :: ws)
              | Raise e => Raise e
              end
          end
        else add current_doc total
      else add current_doc total
  end.

(** The chunks of a list of windows: each window joined and stripped, the
    empty results dropped. *)
Definition render (sep : pystr) (windows : list (list pystr)) : list pystr :=
  flat_map (fun w => append_doc [] (join_docs w sep)) windows.

(** Two consecutive windows: the second starts with the pieces that end
    the first, not all of them, joined no longer than the overlap, and goes
    on with at least one more piece. *)
Definition overlaps (sep : pystr) (overlap : Z) (A B : list pystr) : Prop :=
  exists A' S B',
    A = A' ++ S /\ B = S ++ B' /\ A' <> [] /\ B' <> [] /\ (jlen sep S <= overlap)%Z.

(** A window fits the chunk size unless it is one piece. *)
Definition fits (sep : pystr) (size : Z) (w : list pystr) : Prop :=
  (jlen sep w <= size)%Z \/ length w <= 1.

(** [Tiles sep size overlap pieces windows]: the windows are runs of
    consecutive pieces that cover [pieces] in order.  The first window
    starts at the first piece and the last one ends at the last piece.  A
    window [A' ++ S] that is followed by another is closed before the piece
    [d] because it would be longer than [size] with [d].  The next window
    starts at [S], the pieces that end the closed one, and goes on with
    [d]: [S] is not the whole closed window, its join is no longer than
    [overlap], and it starts as early as it can, since with one more piece
    [a] in front it would be longer than [overlap], or longer than [size]
    with [d]. *)
Inductive Tiles (sep : pystr) (size overlap : Z)
  : list pystr -> list (list pystr) -> Prop :=
| Tiles_last w : Tiles sep size overlap w [w]
| Tiles_next A' S d rest E ws :
    A' <> [] ->
    (size < jlen sep (A' ++ S ++ [d]))%Z ->
    (jlen sep S <= overlap)%Z ->
    (forall A'' a, A' = A'' ++ [a] ->
       (overlap < jlen sep (a :: S))%Z \/ (size < jlen sep (a :: S ++ [d]))%Z) ->
    Tiles sep size overlap (S ++ d :: rest) ((S ++ d :: E) :: ws) ->
    Tiles sep size overlap (A' ++ S ++ d :: rest) ((A' ++ S) :: (S ++ d :: E) :: ws).

End Windows.

(* ------------------------------------------------------------------ *)
(** ** Vocabulary of the further properties *)

(** [w in words] *)
Definition mem (w : pystr) (words : list pystr) : bool :=
  existsb (Text.eqb w) words.

(** The distinct elements of a list in the order in which they first
    occur: the order of the keys of a [dict] filled from the list. *)
Fixpoint first_seen (tokens : list pystr) : list pystr :=
  match tokens with
  | [] => []
  | t :: rest => t :: filter (fun w => negb (Text.eqb w t)) (first_seen rest)
  end.

(** The characters of a text that are not white space. *)
Definition visible (s : pystr) : pystr := filter (fun c => negb (isspace c)) s.

(** No slash occurs in [s]. *)
Definition no_slash (s : pystr) : bool :=
  negb (existsb (Ascii.eqb OsPath.slash) s).

(** [v] is what [art['fulltext'][:limit]] evaluates to when the value of
    ['fulltext'] is a string or an array. *)
Inductive sliced : value -> value -> Prop :=
| sliced_str items s :
    dict_get (str "fulltext") items = Some (VStr s) ->
    sliced (VDict items) (VStr (firstn (Z.to_nat _openai_token_limit) s))
| sliced_list items l :
    dict_get (str "fulltext") items = Some (VList l) ->
    sliced (VDict items) (VList (firstn (Z.to_nat _openai_token_limit) l)).

Definition is_str (v : value) : bool :=
  match v with VStr _ => true | _ => false end.

(** A parsed file over which [for art in articles] cannot get past the
    first step: a scalar, or an object or a string that is not empty. *)
Definition not_an_array (v : value) : bool :=
  match v with
  | VList _ => false
  | VDict [] => false
  | VStr [] => false
  | _ => true
  end.

(* ------------------------------------------------------------------ *)
(** * The model on concrete inputs *)

Example lower_example :
  lower (str "Hello WORLD_9 [x]") = str "hello world_9 [x]".
Proof. reflexivity. Qed.

(** [re.findall(r'\b\w{3,}\b', 'ab abc abcd_e f99 a-bcd x.yzw  ')] *)
Example tokenize_example :
  tokenize word_pattern (str "ab abc abcd_e f99 a-bcd x.yzw  ")
  = [str "abc"; str "abcd_e"; str "f99"; str "bcd"; str "yzw"].
Proof. reflexivity. Qed.

(** [re.sub(r'(?<=\.)\s+$', '', s, flags=re.MULTILINE)] on a period
    followed by a blank line, by spaces at the end of the text, by spaces
    inside a line, and on two sentences that each end a line. *)
Example sub_blank_line :
  Re.sub pattern [] (str "." ++ [newline; newline] ++ str "foo")
  = str "." ++ [newline] ++ str "foo".
Proof. reflexivity. Qed.

Example sub_end_of_text :
  Re.sub pattern [] (str "a.   ") = str "a.".
Proof. reflexivity. Qed.

Example sub_inside_line :
  Re.sub pattern [] (str ".  x" ++ [newline]) = str ".  x" ++ [newline].
Proof. reflexivity. Qed.

Example sub_two_sentences :
  Re.sub pattern []
    (str "a. " ++ [newline; newline] ++ str " b. " ++ [newline])
  = str "a." ++ [newline] ++ str " b.".
Proof. reflexivity. Qed.

Example word_frequency_example :
  __word_frequency [str "the"; str "and"]
    (str "The cat and the Cat saw a dog; the dog saw THE cat and ran.") 2
  = [str "saw"; str "dog"].
Proof. reflexivity. Qed.

Example basename_example :
  OsPath.join (str "out")
    (OsPath.replace (str ".xml") (str ".json") (OsPath.basename (str "raw/b.xml")))
  = str "out/b.json".
Proof. reflexivity. Qed.

(** Pieces [aaaa], [bb], [cc], a long one and [ e ] with chunk size 10 and
    overlap 3: the second chunk starts with the piece that ends the first,
    the long piece is a chunk by itself, and the last chunk is stripped. *)
Example split_text_example :
  LangChain.split_text (LangChain.mkSplitter [newline; newline] 10 3 true)
    (str "aaaa" ++ [newline; newline] ++ str "bb" ++ [newline; newline]
     ++ str "cc" ++ [newline; newline] ++ str "dddddddddddddd"
     ++ [newline; newline] ++ str " e ")
  = Return [str "aaaa" ++ [newline; newline] ++ str "bb";
            str "bb" ++ [newline; newline] ++ str "cc";
            str "dddddddddddddd"; str "e"].
Proof. reflexivity. Qed.

Example extract_hyponyms_example :
  @extract_hyponyms Examples.wordnet (str "bird")
  = [str "sparrow"; str "true_sparrow"; str "finch"].
Proof. reflexivity. Qed.

(* ------------------------------------------------------------------ *)
(** * Properties *)

(** ** Text *)

Lemma text_eqb_eq (a b : pystr) : Text.eqb a b = true <-> a = b.
Proof.
  revert b; induction a as [|x a IH]; intros [|y b]; simpl; split;
    try discriminate; try reflexivity.
  - intros H. apply andb_true_iff in H as [Hx Hab].
    apply Ascii.eqb_eq in Hx. apply IH in Hab. now subst.
  - intros H. injection H as -> ->.
    apply andb_true_iff. split; [apply Ascii.eqb_refl | now apply IH].
Qed.

Lemma text_eqb_refl (a : pystr) : Text.eqb a a = true.
Proof. now apply text_eqb_eq. Qed.

Lemma text_eqb_neq (a b : pystr) : Text.eqb a b = false <-> a <> b.
Proof.
  rewrite <- text_eqb_eq. destruct (Text.eqb a b); split; congruence.
Qed.

(** ** The counter *)

Module CounterFacts.
Import Counter.

Lemma incr_keys w c k : In k (keys (incr w c)) <-> k = w \/ In k (keys c).
Proof.
  induction c as [|[k' n] c IH]; simpl.
  - intuition.
  - destruct (Text.eqb k' w) eqn:E; simpl.
    + apply text_eqb_eq in E. subst. intuition.
    + rewrite IH. intuition.
Qed.

Lemma incr_nodup w c : NoDup (keys c) -> NoDup (keys (incr w c)).
Proof.
  induction c as [|[k' n] c IH]; simpl; intros H.
  - constructor; [intros [] | constructor].
  - inversion H as [|? ? Hnot Hnd]; subst.
    destruct (Text.eqb k' w) eqn:E; simpl.
    + now constructor.
    + constructor; [| now apply IH].
      fold (keys (incr w c)). rewrite incr_keys. intros [->|Hin].
      * rewrite text_eqb_refl in E. discriminate.
      * now apply Hnot.
Qed.

Ltac text_cases :=
  repeat match goal with
  | H : Text.eqb _ _ = true |- _ => apply text_eqb_eq in H
  | H : Text.eqb _ _ = false |- _ => apply text_eqb_neq in H
  | |- context [Text.eqb ?a ?b] => destruct (Text.eqb a b) eqn:?
  | H : context [Text.eqb ?a ?b] |- _ => destruct (Text.eqb a b) eqn:?
  end; subst; try congruence; try contradiction.

Lemma get_cons k' n c k :
  get k ((k', n) :: c) = if Text.eqb k' k then n else get k c.
Proof. unfold get; simpl. now destruct (Text.eqb k' k). Qed.

Lemma get_incr w c k :
  get k (incr w c) = if Text.eqb w k then (get k c + 1)%Z else get k c.
Proof.
  induction c as [|[k' n] c IH].
  - simpl. rewrite get_cons. unfold get; simpl. now destruct (Text.eqb w k).
  - simpl. destruct (Text.eqb k' w) eqn:E; rewrite !get_cons.
    + text_cases.
    + rewrite IH. text_cases.
Qed.

Lemma get_absent k c : ~ In k (keys c) -> get k c = 0%Z.
Proof.
  induction c as [|[k' n] c IH]; simpl; intros H; [reflexivity|].
  rewrite get_cons. text_cases.
  - exfalso. apply H. now left.
  - apply IH. intros Hin. apply H. now right.
Qed.

Lemma in_items w n c :
  NoDup (keys c) -> (In (w, n) (items c) <-> In w (keys c) /\ get w c = n).
Proof.
  unfold items. induction c as [|[k' m] c IH]; simpl; intros Hnd.
  - intuition.
  - inversion Hnd as [|? ? Hnot Hnd']; subst. rewrite get_cons.
    specialize (IH Hnd'). split.
    + intros [Heq | Hin].
      * injection Heq as -> ->. rewrite text_eqb_refl. auto.
      * apply IH in Hin as [Hk Hg]. split; [now right|].
        text_cases.
    + intros [[-> | Hin] Hg].
      * rewrite text_eqb_refl in Hg. subst. now left.
      * right. apply IH. split; [assumption|]. text_cases.
Qed.

Lemma of_list_fold tokens c :
  let c' := fold_left (fun c w => incr w c) tokens c in
  (NoDup (keys c) -> NoDup (keys c')) /\
  (forall k, In k (keys c') <-> In k tokens \/ In k (keys c)) /\
  (forall k, get k c' = (get k c + Z.of_nat (count_occ Text.eq_dec tokens k))%Z).
Proof.
  revert c. induction tokens as [|w tokens IH]; intros c; simpl.
  - repeat split; intuition. lia.
  - destruct (IH (incr w c)) as (Hnd & Hk & Hg). repeat split.
    + intros H. apply Hnd. now apply incr_nodup.
    + intros H. apply Hk in H. rewrite incr_keys in H. intuition.
    + intros H. apply Hk. rewrite incr_keys. intuition.
    + intros k. rewrite Hg, get_incr.
      destruct (Text.eq_dec w k) as [->|Hne].
      * rewrite text_eqb_refl. lia.
      * apply text_eqb_neq in Hne. rewrite Hne. lia.
Qed.

Lemma of_list_nodup tokens : NoDup (keys (of_list tokens)).
Proof. apply (of_list_fold tokens []). constructor. Qed.

Lemma of_list_keys tokens k : In k (keys (of_list tokens)) <-> In k tokens.
Proof.
  destruct (of_list_fold tokens []) as (_ & Hk & _).
  unfold of_list. rewrite Hk. simpl. intuition.
Qed.

Lemma of_list_get tokens k :
  get k (of_list tokens) = Z.of_nat (count_occ Text.eq_dec tokens k).
Proof.
  destruct (of_list_fold tokens []) as (_ & _ & Hg).
  unfold of_list. now rewrite Hg.
Qed.

Lemma del_items w c k n :
  NoDup (keys c) -> (In (k, n) (del w c) <-> In (k, n) c /\ k <> w).
Proof.
  induction c as [|[k' m] c IH]; simpl; intros Hnd.
  - intuition.
  - inversion Hnd as [|? ? Hnot Hnd']; subst. specialize (IH Hnd').
    destruct (Text.eqb k' w) eqn:E; text_cases.
    + split.
      * intros Hin. split; [now right|]. intros ->.
        apply Hnot. change w with (fst (w, n)). now apply in_map.
      * intros [[Heq|Hin] Hne]; [congruence | assumption].
    + simpl. rewrite IH. split.
      * intros [Heq | [Hin Hne]]; [|now auto].
        injection Heq as -> ->. auto.
      * intros [[Heq | Hin] Hne]; auto.
Qed.

Lemma del_keys w c k : In k (keys (del w c)) -> In k (keys c).
Proof.
  induction c as [|[k' m] c IH]; simpl; [tauto|].
  destruct (Text.eqb k' w); simpl; intuition.
Qed.

Lemma del_nodup w c : NoDup (keys c) -> NoDup (keys (del w c)).
Proof.
  induction c as [|[k' m] c IH]; simpl; intros Hnd; [constructor|].
  inversion Hnd as [|? ? Hnot Hnd']; subst.
  destruct (Text.eqb k' w); [assumption|]. simpl. constructor.
  - intros Hin. apply Hnot. now apply del_keys in Hin.
  - now apply IH.
Qed.

Lemma del_all stop c :
  NoDup (keys c) ->
  let c' := fold_left (fun c w => del w c) stop c in
  NoDup (keys c') /\
  forall k n, In (k, n) c' <-> In (k, n) c /\ ~ In k stop.
Proof.
  revert c. induction stop as [|w stop IH]; intros c Hnd; simpl.
  - split; [assumption|]. intuition.
  - destruct (IH (del w c) (del_nodup w c Hnd)) as [Hnd' Hin].
    split; [assumption|]. intros k n. rewrite Hin, del_items by assumption.
    intuition.
Qed.

Lemma filter_keys_nodup (f : pystr * Z -> bool) c :
  NoDup (keys c) -> NoDup (map fst (filter f c)).
Proof.
  induction c as [|[k m] c IH]; simpl; intros Hnd; [constructor|].
  inversion Hnd as [|? ? Hnot Hnd']; subst.
  destruct (f (k, m)); simpl; [|now apply IH].
  constructor; [|now apply IH].
  intros Hin. apply Hnot. apply in_map_iff in Hin as [[k' m'] [Heq Hin]].
  simpl in Heq. subst. apply filter_In in Hin as [Hin _].
  change k with (fst (k, m')). now apply in_map.
Qed.

End CounterFacts.

(** ** The matcher *)

Module ReFacts.
Import Re.

Lemma last_char_cons prev c m : last_char prev (c :: m) = last_char (Some c) m.
Proof.
  unfold last_char. simpl. destruct (rev m) as [|x l] eqn:E; simpl; reflexivity.
Qed.

(** What a greedy repetition returns: a run of the class, at least [min]
    long, followed by a match of the rest of the pattern. *)
Lemma repeat_match_inv cls k min prev s m r :
  repeat_match cls k min prev s = Some (m, r) ->
  exists m1 m2 s2,
    s = m1 ++ s2 /\ m = m1 ++ m2 /\ min <= length m1 /\
    forallb cls m1 = true /\ k (last_char prev m1) s2 = Some (m2, r).
Proof.
  revert min prev m r. induction s as [|c s IH]; intros min prev m r H.
  - simpl in H. destruct min; [|discriminate].
    exists [], m, []. repeat split; auto.
  - simpl in H.
    assert (Hstop : match min with 0 => k prev (c :: s) | S _ => None end = Some (m, r) ->
                    exists m1 m2 s2, c :: s = m1 ++ s2 /\ m = m1 ++ m2 /\ min <= length m1 /\
                      forallb cls m1 = true /\ k (last_char prev m1) s2 = Some (m2, r)).
    { intros Hs. destruct min; [|discriminate].
      exists [], m, (c :: s). repeat split; auto. }
    destruct (cls c) eqn:Hc; [|now apply Hstop].
    destruct (repeat_match cls k (pred min) (Some c) s) as [[m' r']|] eqn:Hrec;
      [|now apply Hstop].
    injection H as <- <-.
    apply IH in Hrec as (m1 & m2 & s2 & -> & -> & Hmin & Hall & Hk).
    exists (c :: m1), m2, s2. rewrite last_char_cons. simpl. rewrite Hc.
    repeat split; auto. lia.
Qed.

(** A match is a prefix of the text at the position. *)
Lemma match_here_prefix p : forall prev s m r,
  match_here p prev s = Some (m, r) -> s = m ++ r.
Proof.
  induction p as [|a p IH]; intros prev s m r H; simpl in H.
  - now injection H as <- <-.
  - destruct a as [|c|cls min|].
    + destruct (xorb _ _); [eauto | discriminate].
    + destruct prev as [d|]; [|discriminate].
      destruct (Ascii.eqb d c); [eauto | discriminate].
    + apply repeat_match_inv in H as (m1 & m2 & s2 & -> & -> & _ & _ & Hk).
      apply IH in Hk. subst. now rewrite app_assoc.
    + destruct s as [|c s]; [eauto|].
      destruct (Ascii.eqb c newline); [eauto | discriminate].
Qed.

(** Every match that [scan] reports is a match of the pattern at some
    position of the text. *)
Lemma scan_match p m : forall s skip prev,
  In (Match m) (scan p skip prev s) ->
  exists prev' s' r, match_here p prev' s' = Some (m, r).
Proof.
  induction s as [|c s IH]; intros skip prev H; simpl in H; [contradiction|].
  destruct skip as [|n]; [|eauto].
  destruct (match_here p prev (c :: s)) as [[[|x m'] r]|] eqn:E.
  - destruct H as [H|H]; [discriminate | eauto].
  - destruct H as [H|H]; [|eauto]. injection H as <-. eauto.
  - destruct H as [H|H]; [discriminate | eauto].
Qed.

Lemma findall_match p s m :
  In m (findall p s) -> exists prev' s' r, match_here p prev' s' = Some (m, r).
Proof.
  unfold findall. intros H. apply in_flat_map in H as [g [Hg Hm]].
  destruct g as [c|m0]; simpl in Hm; [contradiction|].
  destruct Hm as [<-|[]]. eapply scan_match; eauto.
Qed.

End ReFacts.

(** A token of [r'\b\w{3,}\b'] is a run of at least three word characters. *)
Lemma token_shape text w :
  In w (tokenize word_pattern text) -> 3 <= length w /\ forallb isword w = true.
Proof.
  intros H. apply ReFacts.findall_match in H as (prev & s & r & H).
  unfold word_pattern in H. simpl in H.
  destruct (xorb _ _); [|discriminate].
  apply ReFacts.repeat_match_inv in H as (m1 & m2 & s2 & _ & -> & Hmin & Hall & Hk).
  destruct (xorb _ _); [|discriminate]. injection Hk as <- _.
  rewrite app_nil_r. auto.
Qed.

(** ** C1 *)

(** C1. For every text and every threshold, [__word_frequency] returns,
    without repetition, exactly the tokens of the lowercased text that are
    not stopwords and whose number of occurrences equals the threshold; a
    token is a run of at least three word characters matched by
    [\b\w{3,}\b]. *)
Theorem word_frequency_exact_count
    (english_stopwords : list pystr) (text : pystr) (top_freq : Z) :
  let tokens := tokenize word_pattern (lower text) in
  let result := __word_frequency english_stopwords text top_freq in
  NoDup result /\
  (forall w, In w result <->
     In w tokens /\ ~ In w english_stopwords /\
     Z.of_nat (count_occ Text.eq_dec tokens w) = top_freq) /\
  (forall w, In w result -> 3 <= length w /\ forallb isword w = true).
Proof.
  intros tokens result.
  pose proof (CounterFacts.of_list_nodup tokens) as Hnd.
  destruct (CounterFacts.del_all english_stopwords (Counter.of_list tokens) Hnd)
    as [Hnd' Hin].
  assert (Hchar : forall w, In w result <->
     In w tokens /\ ~ In w english_stopwords /\
     Z.of_nat (count_occ Text.eq_dec tokens w) = top_freq).
  { intros w. unfold result, __word_frequency. fold tokens.
    rewrite in_map_iff. split.
    - intros [[k n] [Hk Hf]]. simpl in Hk. subst k.
      apply filter_In in Hf as [Hf Hn]. simpl in Hn. apply Z.eqb_eq in Hn.
      unfold Counter.items in Hf. apply Hin in Hf as [Hf Hstop].
      apply CounterFacts.in_items in Hf as [Hk Hg]; [|assumption].
      rewrite CounterFacts.of_list_keys in Hk.
      rewrite CounterFacts.of_list_get in Hg. split; [|split]; congruence.
    - intros (Hk & Hstop & Hn). exists (w, top_freq). split; [reflexivity|].
      apply filter_In. split; [|apply Z.eqb_refl].
      unfold Counter.items. apply Hin. split; [|assumption].
      apply (proj2 (CounterFacts.in_items w top_freq _ Hnd)).
      rewrite CounterFacts.of_list_keys, CounterFacts.of_list_get. auto. }
  split; [|split].
  - unfold result, __word_frequency. fold tokens.
    now apply CounterFacts.filter_keys_nodup.
  - exact Hchar.
  - intros w Hw. apply Hchar in Hw as [Hw _]. now apply token_shape in Hw.
Qed.

(** ** Construction: C5 and C9 *)

(** C5. For a path that does not exist, [__init__] raises
    [FileNotFoundError] at the existence check: no attribute is set, nothing
    is logged, the extraction is not called, and no object is built. *)
Theorem init_missing_file_raises {imports : Imports} (file_path : pystr) (w : World) :
  path_exists w file_path = false ->
  __init__ file_path w
    = (Raise (FileNotFoundError (not_found_message file_path)), no_attributes, w)
  /\ construct file_path w
    = (Raise (FileNotFoundError (not_found_message file_path)), w).
Proof.
  intros Hmissing. unfold construct, __init__. rewrite Hmissing. simpl. auto.
Qed.

Lemma init_missing_file_raises_witness :
  let w := Examples.world [(str "raw/b.xml", str "<x/>")] [] in
  path_exists w (str "raw/c.xml") = false /\
  @__init__ Examples.imports (str "raw/c.xml") w
    = (Raise (FileNotFoundError (str "File raw/c.xml does not exist.")),
       no_attributes, w).
Proof.
  split; [reflexivity|].
  apply (@init_missing_file_raises Examples.imports (str "raw/c.xml")).
  reflexivity.
Defined.

(** C9. For a path that exists, [__init__] calls the extraction exactly
    when ['post_process_data'] does not occur in the path; when it occurs,
    [__init__] returns with [file_path] set to the path it was given and
    does nothing to the world; in both cases [docs] is set to the empty
    list. *)
Theorem init_routes_by_substring {imports : Imports} (path : pystr) (w : World)
    (out : outcome unit) (self : attributes) (w' : World) :
  path_exists w path = true ->
  __init__ path w = (out, self, w') ->
  (exists events,
      trace w' = trace w ++ events /\
      (In (Extracted path) events <->
       contains (str "post_process_data") path = false)) /\
  (contains (str "post_process_data") path = true ->
     out = Return tt /\ attr_file_path self = Some path /\ w' = w) /\
  attr_docs self = Some [].
Proof.
  intros Hexists Hinit. unfold __init__ in Hinit. rewrite Hexists in Hinit.
  cbn [negb] in Hinit.
  destruct (contains (str "post_process_data") path) eqn:Hsub; cbn [negb] in Hinit.
  - injection Hinit as <- <- <-. repeat split; auto.
    exists []. rewrite app_nil_r. split; [reflexivity|].
    simpl. split; [contradiction | discriminate].
  - assert (Hev : forall f,
      exists events,
        trace (set_fs f (emit (Extracted path)
                 (emit (Logged WARNING (LogText (warning_message path))) w)))
        = trace w ++ events /\
        (In (Extracted path) events <-> false = false)).
    { intros f. exists [Logged WARNING (LogText (warning_message path)); Extracted path].
      simpl. rewrite <- app_assoc. simpl. intuition. }
    destruct (from_xml path _ _) as [[u|e] fs'] eqn:Hx.
    + unfold getenv in Hinit. cbn [env set_fs emit] in Hinit.
      destruct (env w (str "COMPILED_DOCS_PATH")) as [dir|];
        injection Hinit as <- <- <-; (split; [apply Hev | split; [discriminate | reflexivity]]).
    + injection Hinit as <- <- <-.
      split; [apply Hev | split; [discriminate | reflexivity]].
Qed.

Lemma init_routes_by_substring_witness :
  let w := Examples.world [(str "raw/b.xml", str "<x/>")]
                          [(str "COMPILED_DOCS_PATH", str "out")] in
  path_exists w (str "raw/b.xml") = true /\
  exists w',
    @__init__ Examples.imports (str "raw/b.xml") w
      = (Return tt, mkAttributes (Some (str "out/b.json")) (Some []), w') /\
    (exists events,
        trace w' = trace w ++ events /\
        (In (Extracted (str "raw/b.xml")) events <->
         contains (str "post_process_data") (str "raw/b.xml") = false)).
Proof.
  intros w. split; [reflexivity|]. eexists. split; [reflexivity|].
  exact (proj1 (@init_routes_by_substring Examples.imports (str "raw/b.xml") w
                  _ _ _ eq_refl eq_refl)).
Defined.

(** ** Compiling the corpus: C6, C8, C10 and C3 *)

Section CompileFacts.
Context {imports : Imports}.

Lemma load_articles_file self w contents :
  fs w (file_path self) = Some (File contents) ->
  load_articles self w = (json_load contents, self, w).
Proof.
  intros Hfile. unfold load_articles, bind, get_self, get_world, lift, open_read.
  rewrite Hfile. now destruct (json_load contents).
Qed.

(** Loading leaves the object and the world as they are. *)
Lemma load_articles_pure self w :
  snd (fst (load_articles self w)) = self /\ snd (load_articles self w) = w.
Proof.
  unfold load_articles, bind, get_self, get_world, lift.
  destruct (open_read w (file_path self)); simpl; [|auto].
  destruct (json_load a); auto.
Qed.

Lemma compile_docs_loaded self w articles :
  load_articles self w = (Return articles, self, w) ->
  __compile_docs self w = after_load articles self w.
Proof.
  intros Hload. unfold __compile_docs, after_load.
  unfold bind at 1. unfold try_except. now rewrite Hload.
Qed.

Lemma compile_docs_load_raises self w e :
  load_articles self w = (Raise e, self, w) ->
  __compile_docs self w =
    if is_JSONDecodeError e
    then (Raise (ValueError (invalid_json_message (file_path self)) (Some e)),
          self, emit (Logged ERROR (LogExn e)) w)
    else (Raise e, self, w).
Proof.
  intros Hload. unfold __compile_docs.
  unfold bind at 1. unfold try_except. rewrite Hload.
  destruct (is_JSONDecodeError e); reflexivity.
Qed.







Lemma comprehension_map {A B} (f : A -> outcome B) (g : A -> B) l :
  (forall x, In x l -> f x = Return (g x)) ->
  comprehension f l = Return (map g l).
Proof.
  intros H. induction l as [|x l IH]; simpl; [reflexivity|].
  rewrite (H x (or_introl eq_refl)), IH; [reflexivity|].
  intros y Hy. apply H. now right.
Qed.

End CompileFacts.

(** C6. When the file holds text that [json.load] rejects with a
    [JSONDecodeError], [__compile_docs] logs that error at level ERROR and
    then raises a [ValueError] whose context is that error; the world
    changes by that one log record. *)
Theorem compile_docs_invalid_json {imports : Imports}
    (self : DocumentProcessor) (w : World) (contents msg : pystr) :
  fs w (file_path self) = Some (File contents) ->
  json_load contents = Raise (JSONDecodeError msg) ->
  __compile_docs self w =
    (Raise (ValueError (invalid_json_message (file_path self))
                       (Some (JSONDecodeError msg))),
     self,
     emit (Logged ERROR (LogExn (JSONDecodeError msg))) w).
Proof.
  intros Hfile Hparse.
  rewrite (compile_docs_load_raises self w (JSONDecodeError msg)); [reflexivity|].
  rewrite (load_articles_file self w contents Hfile). now rewrite Hparse.
Qed.

Lemma compile_docs_invalid_json_witness :
  let w := Examples.world [(str "post_process_data/a.json", str "[{")] [] in
  let self := mkProcessor (str "post_process_data/a.json") [VStr (str "old")] in
  fs w (file_path self) = Some (File (str "[{")) /\
  @json_load Examples.imports (str "[{") = Raise (JSONDecodeError (str "Expecting value")) /\
  @__compile_docs Examples.imports self w =
    (Raise (ValueError (str "Error: post_process_data/a.json is not a valid json file.")
                       (Some (JSONDecodeError (str "Expecting value")))),
     self,
     emit (Logged ERROR (LogExn (JSONDecodeError (str "Expecting value")))) w).
Proof.
  intros w self. split; [reflexivity|]. split; [reflexivity|].
  apply (@compile_docs_invalid_json Examples.imports self w (str "[{")
           (str "Expecting value")); reflexivity.
Defined.

(** C8. When opening or parsing the file raises, for whatever reason,
    [__compile_docs] raises too and leaves the object as it was: [docs]
    keeps its value. *)
Theorem compile_docs_failed_load_keeps_docs {imports : Imports}
    (self : DocumentProcessor) (w : World) (e : PyExn) :
  fst (fst (load_articles self w)) = Raise e ->
  let '(out, self', _) := __compile_docs self w in
  (exists e', out = Raise e') /\ self' = self /\ docs self' = docs self.
Proof.
  intros Hraise.
  destruct (load_articles_pure self w) as [Hself Hw].
  destruct (load_articles self w) as [[o s] w0] eqn:Hload.
  simpl in *. subst.
  rewrite (compile_docs_load_raises self w e Hload).
  destruct (is_JSONDecodeError e); eauto.
Qed.

Lemma compile_docs_failed_load_keeps_docs_witness :
  let w := Examples.world [(str "post_process_data/a.json", str "[{")] [] in
  let self := mkProcessor (str "post_process_data/a.json") [VStr (str "old")] in
  fst (fst (@load_articles Examples.imports self w))
    = Raise (JSONDecodeError (str "Expecting value")) /\
  docs (snd (fst (@__compile_docs Examples.imports self w))) = [VStr (str "old")].
Proof.
  intros w self. split; [reflexivity|].
  pose proof (@compile_docs_failed_load_keeps_docs Examples.imports self w
                (JSONDecodeError (str "Expecting value")) eq_refl) as H.
  destruct (@__compile_docs Examples.imports self w) as [[out self'] w'].
  destruct H as (_ & _ & H). exact H.
Defined.




(** ** The substitution of [__compile_docs] *)

Module PatternFacts.
Import ReFacts.

Lemma repeat_then_test cls test : forall s min prev,
  match Re.repeat_match cls (then_test test) min prev s with
  | Some (m, r) =>
      s = m ++ r /\ min <= length m /\ forallb cls m = true /\ test r = true /\
      (forall m' r', s = m' ++ r' -> forallb cls m' = true -> test r' = true ->
                     length m' <= length m)
  | None =>
      forall m' r', s = m' ++ r' -> forallb cls m' = true -> min <= length m' ->
                    test r' = false
  end.
Proof.
  induction s as [|c s IH]; intros min prev.
  - simpl. destruct min as [|min]; unfold then_test.
    + destruct (test []) eqn:Ht.
      * repeat split; auto. intros m' r' H _ _.
        symmetry in H. apply app_eq_nil in H as [-> _]. auto.
      * intros m' r' H _ _. symmetry in H. apply app_eq_nil in H as [_ ->]. auto.
    + intros m' r' H _ Hmin. symmetry in H. apply app_eq_nil in H as [-> _].
      simpl in Hmin. lia.
  - simpl.
    assert (Hstop : cls c = false \/
                    Re.repeat_match cls (then_test test) (pred min) (Some c) s = None ->
      match match min with 0 => then_test test prev (c :: s) | S _ => None end with
      | Some (m, r) =>
          c :: s = m ++ r /\ min <= length m /\ forallb cls m = true /\ test r = true /\
          (forall m' r', c :: s = m' ++ r' -> forallb cls m' = true -> test r' = true ->
                         length m' <= length m)
      | None =>
          forall m' r', c :: s = m' ++ r' -> forallb cls m' = true -> min <= length m' ->
                        test r' = false
      end).
    { intros Hcase.
      assert (Hlong : forall m' r' x, c :: s = (x :: m') ++ r' ->
                forallb cls (x :: m') = true -> pred min <= length m' ->
                test r' = false).
      { intros m' r' x Heq Hall Hmin. simpl in Heq. injection Heq as <- ->.
        simpl in Hall. apply andb_true_iff in Hall as [Hc Hall].
        destruct Hcase as [Hf | Hnone]; [congruence|].
        specialize (IH (pred min) (Some c)). rewrite Hnone in IH.
        now apply (IH m' r'). }
      destruct min as [|min]; unfold then_test.
      - destruct (test (c :: s)) eqn:Ht.
        + repeat split; auto. intros [|x m'] r' Heq Hall Htest; [simpl; lia|].
          rewrite (Hlong m' r' x Heq Hall) in Htest; [discriminate | simpl; lia].
        + intros [|x m'] r' Heq Hall _.
          * simpl in Heq. now subst.
          * apply (Hlong m' r' x Heq Hall). simpl. lia.
      - intros [|x m'] r' Heq Hall Hmin; [simpl in Hmin; lia|].
        apply (Hlong m' r' x Heq Hall). simpl in *. lia. }
    destruct (cls c) eqn:Hc; [|apply Hstop; now left].
    destruct (Re.repeat_match cls (then_test test) (pred min) (Some c) s)
      as [[m r]|] eqn:Hrec; [|apply Hstop; now right].
    specialize (IH (pred min) (Some c)). rewrite Hrec in IH.
    destruct IH as (-> & Hmin & Hall & Ht & Hmax).
    repeat split; auto.
    + simpl. lia.
    + simpl. now rewrite Hc.
    + intros [|x m'] r' Heq Hall' Ht'; [simpl; lia|].
      simpl in Heq. injection Heq as <- Heq. simpl in Hall'.
      apply andb_true_iff in Hall' as [_ Hall']. simpl.
      apply le_n_S. now apply (Hmax m' r').
Qed.

Lemma repeat_match_ext cls k1 k2 :
  (forall prev s, k1 prev s = k2 prev s) ->
  forall s min prev, Re.repeat_match cls k1 min prev s = Re.repeat_match cls k2 min prev s.
Proof.
  intros Hk. induction s as [|c s IH]; intros min prev; simpl.
  - now rewrite Hk.
  - rewrite IH, Hk. reflexivity.
Qed.

Lemma end_of_line_is_test cls s min prev :
  Re.repeat_match cls (Re.match_here [Re.EndOfLine]) min prev s
  = Re.repeat_match cls (then_test line_end) min prev s.
Proof.
  apply repeat_match_ext. intros prev' [|c s']; [reflexivity|].
  unfold then_test. simpl. now destruct (Ascii.eqb c newline).
Qed.

(** What a match of the pattern is: after a period, the longest non-empty
    run of white space that ends at a line end. *)
Lemma match_here_pattern_some prev s m r :
  Re.match_here pattern prev s = Some (m, r) ->
  prev = Some period /\ s = m ++ r /\ m <> [] /\ forallb isspace m = true /\
  line_end r = true /\
  (forall m' r', s = m' ++ r' -> forallb isspace m' = true -> line_end r' = true ->
                 length m' <= length m).
Proof.
  unfold pattern. cbn [Re.match_here]. rewrite end_of_line_is_test.
  destruct prev as [d|]; [|discriminate].
  destruct (Ascii.eqb d period) eqn:Hd; [|discriminate].
  apply Ascii.eqb_eq in Hd. subst d. intros H.
  pose proof (repeat_then_test isspace line_end s 1 (Some period)) as Hr.
  rewrite H in Hr. destruct Hr as (Hs & Hmin & Hall & Ht & Hmax).
  repeat split; auto. intros ->. simpl in Hmin. lia.
Qed.

Lemma match_here_pattern_none prev s :
  Re.match_here pattern prev s = None ->
  prev <> Some period \/
  (forall m' r', s = m' ++ r' -> forallb isspace m' = true -> m' <> [] ->
                 line_end r' = false).
Proof.
  unfold pattern. cbn [Re.match_here]. rewrite end_of_line_is_test.
  destruct prev as [d|]; [|left; discriminate].
  destruct (Ascii.eqb d period) eqn:Hd;
    [|intros _; left; intros H; injection H as ->;
      rewrite Ascii.eqb_refl in Hd; discriminate].
  apply Ascii.eqb_eq in Hd. subst d. intros H. right.
  pose proof (repeat_then_test isspace line_end s 1 (Some period)) as Hr.
  rewrite H in Hr. intros m' r' Hs Hall Hne. apply (Hr m' r' Hs Hall).
  destruct m'; [congruence | simpl; lia].
Qed.

Lemma match_here_pattern_other prev s :
  prev <> Some period -> Re.match_here pattern prev s = None.
Proof.
  intros Hp. unfold pattern. cbn [Re.match_here].
  destruct prev as [d|]; [|reflexivity].
  destruct (Ascii.eqb d period) eqn:Hd; [|reflexivity].
  apply Ascii.eqb_eq in Hd. congruence.
Qed.

Lemma match_here_pattern_nonspace prev c s :
  isspace c = false -> Re.match_here pattern prev (c :: s) = None.
Proof.
  intros Hc. unfold pattern. cbn [Re.match_here].
  destruct prev as [d|]; [|reflexivity].
  destruct (Ascii.eqb d period); [|reflexivity].
  simpl. now rewrite Hc.
Qed.

Lemma match_here_pattern_nil prev : Re.match_here pattern prev [] = None.
Proof.
  unfold pattern. cbn [Re.match_here].
  destruct prev as [d|]; [|reflexivity].
  now destruct (Ascii.eqb d period).
Qed.

(** Passing the characters of a match. *)
Lemma scan_skip p : forall m r prev,
  Re.scan p (length m) prev (m ++ r) = Re.scan p 0 (Re.last_char prev m) r.
Proof.
  induction m as [|c m IH]; intros r prev; [reflexivity|].
  simpl length. simpl app. cbn [Re.scan]. rewrite IH. now rewrite last_char_cons.
Qed.

Lemma sub_is_sub_from s : Re.sub pattern [] s = sub_from None s.
Proof. reflexivity. Qed.

Lemma sub_from_nil prev : sub_from prev [] = [].
Proof. reflexivity. Qed.

Lemma sub_from_keep prev c s :
  Re.match_here pattern prev (c :: s) = None ->
  sub_from prev (c :: s) = c :: sub_from (Some c) s.
Proof. intros H. unfold sub_from. cbn [Re.scan]. now rewrite H. Qed.

Lemma sub_from_drop prev s m r :
  Re.match_here pattern prev s = Some (m, r) ->
  sub_from prev s = sub_from (Re.last_char prev m) r.
Proof.
  intros H. pose proof (match_here_pattern_some _ _ _ _ H) as (_ & Hs & Hne & _).
  destruct m as [|x m]; [congruence|]. subst s.
  unfold sub_from. simpl app. cbn [Re.scan].
  change (x :: m ++ r) with ((x :: m) ++ r). rewrite H.
  cbn [flat_map app]. rewrite scan_skip. now rewrite last_char_cons.
Qed.

End PatternFacts.

Module SubFacts.
Import ReFacts PatternFacts.

Lemma isspace_not_period c : isspace c = true -> Some c <> Some period.
Proof. intros Hc H. injection H as ->. discriminate. Qed.

Lemma last_char_space prev m :
  m <> [] -> forallb isspace m = true ->
  exists c, Re.last_char prev m = Some c /\ isspace c = true.
Proof.
  intros Hne Hall. unfold Re.last_char.
  destruct (rev m) as [|c l] eqn:E.
  - apply (f_equal (@rev ascii)) in E. rewrite rev_involutive in E. now subst.
  - exists c. split; [reflexivity|].
    rewrite forallb_forall in Hall. apply Hall. apply in_rev. rewrite E. now left.
Qed.

(** The substitution removes runs of white space after a period that end
    at a line end, and nothing else. *)
Lemma sub_from_strips : forall n s prev,
  length s <= n -> Strips prev s (sub_from prev s).
Proof.
  induction n as [|n IH]; intros s prev Hlen.
  - destruct s; [constructor | simpl in Hlen; lia].
  - destruct s as [|c s]; [constructor|].
    destruct (Re.match_here pattern prev (c :: s)) as [[m r]|] eqn:E.
    + rewrite (sub_from_drop _ _ _ _ E).
      apply match_here_pattern_some in E as (-> & Hs & Hne & Hall & Hend & _).
      rewrite Hs. apply Strips_drop; auto. apply IH.
      apply (f_equal (@length ascii)) in Hs. rewrite length_app in Hs.
      destruct m; [congruence|]. simpl in *. lia.
    + rewrite (sub_from_keep _ _ _ E). constructor. apply IH. simpl in Hlen. lia.
Qed.

(** Inside a run of white space that does not follow a period nothing is
    removed. *)
Lemma sub_from_ws_run : forall W R prev,
  forallb isspace W = true -> prev <> Some period ->
  sub_from prev (W ++ R) = W ++ sub_from (Re.last_char prev W) R.
Proof.
  induction W as [|c W IH]; intros R prev Hall Hprev; [reflexivity|].
  simpl in Hall. apply andb_true_iff in Hall as [Hc Hall]. simpl app.
  rewrite sub_from_keep by now apply match_here_pattern_other.
  rewrite IH by (auto using isspace_not_period).
  now rewrite last_char_cons.
Qed.

Lemma span_space : forall s,
  exists W R, s = W ++ R /\ forallb isspace W = true /\ headed R.
Proof.
  induction s as [|c s (W & R & -> & Hall & HR)].
  - exists [], []. repeat split. now left.
  - destruct (isspace c) eqn:Hc.
    + exists (c :: W), R. repeat split; auto. simpl. now rewrite Hc.
    + exists [], (c :: W ++ R). repeat split. right. eauto.
Qed.

Lemma sub_from_headed prev R :
  headed R ->
  (R = [] /\ sub_from prev R = []) \/
  (exists x R' T, R = x :: R' /\ isspace x = false /\ sub_from prev R = x :: T).
Proof.
  intros [->|(x & R' & -> & Hx)]; [left; auto|]. right.
  exists x, R', (sub_from (Some x) R'). repeat split; auto.
  apply sub_from_keep. now apply match_here_pattern_nonspace.
Qed.

(** A run of white space of the output that ends at a line end is one of
    the input. *)
Lemma run_of_output : forall W R prevR m2 r2,
  forallb isspace W = true -> headed R ->
  W ++ sub_from prevR R = m2 ++ r2 ->
  m2 <> [] -> forallb isspace m2 = true -> line_end r2 = true ->
  exists r2', W ++ R = m2 ++ r2' /\ line_end r2' = true.
Proof.
  induction W as [|c W IH]; intros R prevR m2 r2 HW HR Heq Hne Hm2 Hend.
  - destruct m2 as [|x m2]; [congruence|]. simpl in Hm2.
    apply andb_true_iff in Hm2 as [Hx _]. simpl in Heq.
    destruct (sub_from_headed prevR R HR) as [[-> HT]|(y & R' & T & -> & Hy & HT)];
      rewrite HT in Heq; [discriminate|].
    injection Heq as -> _. congruence.
  - destruct m2 as [|x m2]; [congruence|]. simpl in Heq. injection Heq as <- Heq.
    simpl in HW. apply andb_true_iff in HW as [Hc HW].
    simpl in Hm2. apply andb_true_iff in Hm2 as [_ Hm2].
    destruct m2 as [|y m2].
    + simpl in Heq. subst r2. exists (W ++ R). split; [reflexivity|].
      destruct W as [|d W]; [|exact Hend]. simpl in *.
      destruct (sub_from_headed prevR R HR) as [[-> HT]|(y & R' & T & -> & Hy & HT)];
        [reflexivity|].
      rewrite HT in Hend. simpl in Hend. apply Ascii.eqb_eq in Hend. subst y.
      discriminate.
    + destruct (IH R prevR (y :: m2) r2 HW HR Heq) as (r2' & Hr & He); auto;
        [discriminate|].
      exists r2'. split; [|exact He]. simpl. simpl in Hr. now rewrite Hr.
Qed.

Lemma head_after_keep prev c s :
  Re.match_here pattern prev (c :: s) = None ->
  Re.match_here pattern prev (c :: sub_from (Some c) s) = None.
Proof.
  intros Hnone.
  destruct (Re.match_here pattern prev (c :: sub_from (Some c) s))
    as [[m2 r2]|] eqn:E; [exfalso | reflexivity].
  apply match_here_pattern_some in E as (Hprev & Heq & Hne & Hm2 & Hend & _).
  apply match_here_pattern_none in Hnone as [Hp | Hnone]; [congruence|].
  assert (Hc : isspace c = true).
  { destruct m2 as [|x m2]; [congruence|]. simpl in Heq. injection Heq as <- _.
    simpl in Hm2. now apply andb_true_iff in Hm2 as [Hx _]. }
  destruct (span_space s) as (W & R & -> & HW & HR).
  rewrite sub_from_ws_run in Heq by (auto using isspace_not_period).
  destruct (run_of_output (c :: W) R (Re.last_char (Some c) W) m2 r2)
    as (r2' & Hr & He); auto.
  - simpl. now rewrite Hc.
  - rewrite (Hnone m2 r2') in He; [discriminate | exact Hr | exact Hm2 | exact Hne].
Qed.

Lemma head_after_drop prev s m r :
  Re.match_here pattern prev s = Some (m, r) ->
  Re.match_here pattern (Some period) (sub_from (Re.last_char prev m) r) = None.
Proof.
  intros Hsome.
  apply match_here_pattern_some in Hsome as (-> & Hs & Hne & Hall & Hend & Hmax).
  destruct (Re.match_here pattern (Some period) (sub_from _ r))
    as [[m2 r2]|] eqn:E; [exfalso | reflexivity].
  apply match_here_pattern_some in E as (_ & Heq & Hne2 & Hm2 & Hend2 & _).
  destruct (last_char_space (Some period) m Hne Hall) as (c & Hlast & Hc).
  rewrite Hlast in Heq.
  destruct (span_space r) as (W & R & -> & HW & HR).
  rewrite sub_from_ws_run in Heq by (auto using isspace_not_period).
  destruct (run_of_output W R _ m2 r2 HW HR Heq Hne2 Hm2 Hend2) as (r2' & Hr & He).
  specialize (Hmax (m ++ m2) r2').
  rewrite length_app in Hmax.
  assert (length m + length m2 <= length m).
  { apply Hmax; auto.
    - rewrite Hs, Hr. now rewrite app_assoc.
    - rewrite forallb_app. now rewrite Hall, Hm2. }
  destruct m2; [congruence | simpl in *; lia].
Qed.

Lemma no_match_left_head prev prev' s :
  no_match_left prev' s -> Re.match_here pattern prev s = None ->
  no_match_left prev s.
Proof.
  intros Hclean Hhead [|x p] q Heq.
  - simpl in *. now subst.
  - rewrite last_char_cons. specialize (Hclean (x :: p) q Heq).
    now rewrite last_char_cons in Hclean.
Qed.

Lemma no_match_left_cons prev c s :
  Re.match_here pattern prev (c :: s) = None -> no_match_left (Some c) s ->
  no_match_left prev (c :: s).
Proof.
  intros Hhead Htail [|x p] q Heq.
  - simpl in *. now subst.
  - simpl in Heq. injection Heq as <- Heq. rewrite last_char_cons. now apply Htail.
Qed.

(** After the substitution no match of the pattern is left. *)
Lemma sub_from_no_match_left : forall n s prev,
  length s <= n -> no_match_left prev (sub_from prev s).
Proof.
  induction n as [|n IH]; intros s prev Hlen.
  - destruct s; [|simpl in Hlen; lia].
    intros p q Heq. rewrite sub_from_nil in Heq. symmetry in Heq.
    apply app_eq_nil in Heq as [-> ->]. apply match_here_pattern_nil.
  - destruct s as [|c s].
    { intros p q Heq. rewrite sub_from_nil in Heq. symmetry in Heq.
      apply app_eq_nil in Heq as [-> ->]. apply match_here_pattern_nil. }
    destruct (Re.match_here pattern prev (c :: s)) as [[m r]|] eqn:E.
    + rewrite (sub_from_drop _ _ _ _ E).
      pose proof (head_after_drop _ _ _ _ E) as Hhead.
      apply match_here_pattern_some in E as (-> & Hs & Hne & _).
      apply (no_match_left_head _ (Re.last_char (Some period) m)); [|exact Hhead].
      apply IH. apply (f_equal (@length ascii)) in Hs. rewrite length_app in Hs.
      destruct m; [congruence|]. simpl in *. lia.
    + rewrite (sub_from_keep _ _ _ E). apply no_match_left_cons.
      * now apply head_after_keep.
      * apply IH. simpl in Hlen. lia.
Qed.

(** On a text without matches [scan] reports none. *)
Lemma findall_none : forall s prev,
  no_match_left prev s ->
  flat_map (fun g => match g with Re.Match m => [m] | Re.Lit _ => [] end)
           (Re.scan pattern 0 prev s) = [].
Proof.
  induction s as [|c s IH]; intros prev Hclean; [reflexivity|].
  pose proof (Hclean [] (c :: s) eq_refl) as Hhead.
  change (Re.last_char prev []) with prev in Hhead.
  cbn [Re.scan]. rewrite Hhead. cbn [flat_map app].
  apply IH. intros p q Heq. specialize (Hclean (c :: p) q).
  rewrite last_char_cons in Hclean. apply Hclean. simpl. now rewrite Heq.
Qed.

Theorem sub_removes_every_match s :
  Re.findall pattern (Re.sub pattern [] s) = [].
Proof.
  unfold Re.findall. apply findall_none. rewrite sub_is_sub_from.
  now apply (sub_from_no_match_left (length s)).
Qed.

Theorem sub_strips s : Strips None s (Re.sub pattern [] s).
Proof. rewrite sub_is_sub_from. now apply (sub_from_strips (length s)). Qed.

End SubFacts.

Section CorpusFacts.
Context {imports : Imports}.

Lemma comprehension_articles elements texts :
  Forall2 article elements texts ->
  comprehension truncated_fulltext elements
  = Return (map VStr (map (firstn (Z.to_nat _openai_token_limit)) texts)).
Proof.
  induction 1 as [|art text elements texts (items & -> & Hget) _ IH];
    [reflexivity|].
  cbn [comprehension map]. unfold truncated_fulltext at 1.
  unfold subscript_fulltext. rewrite Hget. unfold slice_to. now rewrite IH.
Qed.

Lemma comprehension_as_str parts :
  comprehension as_str (map VStr parts) = Return parts.
Proof.
  induction parts as [|p parts IH]; [reflexivity|].
  cbn [comprehension map as_str]. now rewrite IH.
Qed.

Lemma after_load_articles self w elements texts :
  Forall2 article elements texts ->
  let parts := map (firstn (Z.to_nat _openai_token_limit)) texts in
  after_load (VList elements) self w
  = (Return (Re.sub pattern [] (Text.join (str ".") parts)),
     mkProcessor (file_path self) (map VStr parts), w).
Proof.
  intros Harts parts. unfold after_load, bind, lift, set_docs, get_self, ret.
  cbn [iterate]. cbv beta iota. rewrite (comprehension_articles _ _ Harts).
  cbv beta iota. cbn [docs]. fold parts. now rewrite comprehension_as_str.
Qed.

End CorpusFacts.

(** C3. When the file parses as an array of article records, that is, of
    objects whose ['fulltext'] is a string, [__compile_docs] returns the
    first 150,000 characters of each text, joined by ['.'], with the matches
    of [(?<=\.)\s+$] taken out, and stores the truncated texts in [docs].
    What is taken out is white space that follows a period and runs to a
    line end, and no such run is left in the result. *)
Theorem compile_docs_corpus {imports : Imports}
    (self : DocumentProcessor) (w : World) (contents : pystr)
    (elements : list value) (texts : list pystr) :
  fs w (file_path self) = Some (File contents) ->
  json_load contents = Return (VList elements) ->
  Forall2 article elements texts ->
  let parts := map (firstn (Z.to_nat 150000)) texts in
  let joined := Text.join (str ".") parts in
  let corpus := Re.sub pattern [] joined in
  __compile_docs self w
    = (Return corpus, mkProcessor (file_path self) (map VStr parts), w) /\
  Strips None joined corpus /\
  Re.findall pattern corpus = [].
Proof.
  intros Hfile Hparse Harts parts joined corpus.
  split; [|split].
  - assert (Hload : load_articles self w = (Return (VList elements), self, w)).
    { rewrite (load_articles_file self w contents Hfile). now rewrite Hparse. }
    rewrite (compile_docs_loaded self w _ Hload).
    apply (after_load_articles self w elements texts Harts).
  - apply SubFacts.sub_strips.
  - apply SubFacts.sub_removes_every_match.
Qed.

Lemma compile_docs_corpus_witness :
  let contents :=
    js "[{'fulltext': 'One.  '}, {'id': 7, 'fulltext': 'Two. '}]" in
  let w := Examples.world [(str "post_process_data/a.json", contents)] [] in
  let self := mkProcessor (str "post_process_data/a.json") [] in
  fs w (file_path self) = Some (File contents) /\
  @json_load Examples.imports contents
    = Return (VList
        [VDict [(str "fulltext", VStr (str "One.  "))];
         VDict [(str "id", VInt 7); (str "fulltext", VStr (str "Two. "))]]) /\
  @__compile_docs Examples.imports self w
    = (Return (str "One.  .Two."),
       mkProcessor (str "post_process_data/a.json")
                   [VStr (str "One.  "); VStr (str "Two. ")], w).
Proof.
  intros contents w self. split; [reflexivity|]. split; [reflexivity|].
  assert (Harts : Forall2 article
            [VDict [(str "fulltext", VStr (str "One.  "))];
             VDict [(str "id", VInt 7); (str "fulltext", VStr (str "Two. "))]]
            [str "One.  "; str "Two. "]).
  { repeat constructor; eexists; split; reflexivity. }
  exact (proj1 (@compile_docs_corpus Examples.imports self w contents _ _
                  eq_refl eq_refl Harts)).
Defined.

(** ** Hyponyms: C4 *)

Section HyponymFacts.
Context {wn : WordNet}.

(** A loop that appends what [f] gives for each element builds the
    flattening. *)
Lemma fold_left_append {A B} (f : A -> list B) (l : list A) (acc : list B) :
  fold_left (fun acc x => acc ++ f x) l acc = acc ++ flat_map f l.
Proof.
  revert acc. induction l as [|x l IH]; intros acc; simpl.
  - now rewrite app_nil_r.
  - now rewrite IH, app_assoc.
Qed.

Lemma flat_map_length_sum {A B} (f : A -> list B) (l : list A) :
  length (flat_map f l) = list_sum (map (fun x => length (f x)) l).
Proof.
  induction l as [|x l IH]; simpl; [reflexivity|]. now rewrite length_app, IH.
Qed.

Lemma fold_left_ext {A B} (f g : B -> A -> B) (l : list A) (acc : B) :
  (forall b a, f b a = g b a) -> fold_left f l acc = fold_left g l acc.
Proof.
  intros H. revert acc. induction l as [|x l IH]; intros acc; simpl;
    [reflexivity|]. now rewrite H, IH.
Qed.

Lemma lemma_loop (hyponym : synset) (acc : list pystr) :
  fold_left (fun hyponyms lemma => hyponyms ++ [lemma_name lemma])
            (synset_lemmas hyponym) acc
  = acc ++ map lemma_name (synset_lemmas hyponym).
Proof.
  rewrite (fold_left_append (fun l => [lemma_name l])).
  reflexivity.
Qed.

Lemma hyponym_loop (s : synset) (acc : list pystr) :
  fold_left (fun hyponyms hyponym =>
      fold_left (fun hyponyms lemma => hyponyms ++ [lemma_name lemma])
                (synset_lemmas hyponym) hyponyms)
    (synset_hyponyms s) acc
  = acc ++ flat_map (fun h => map lemma_name (synset_lemmas h)) (synset_hyponyms s).
Proof.
  rewrite <- fold_left_append. apply fold_left_ext. intros b a. apply lemma_loop.
Qed.

End HyponymFacts.

(** C4. For every word, [extract_hyponyms] returns the lemma names of the
    hyponyms of the sense-sets of the word, flattened in the order in which
    the database lists sense-sets, hyponyms and lemmas, every occurrence
    kept; for a word without sense-sets the list is empty. *)
Theorem extract_hyponyms_flattens {wn : WordNet} (word : pystr) :
  extract_hyponyms word
  = flat_map (fun s => flat_map (fun h => map lemma_name (synset_lemmas h))
                                (synset_hyponyms s))
             (wn_synsets word)
  /\ length (extract_hyponyms word)
     = list_sum (map (fun s => list_sum (map (fun h => length (synset_lemmas h))
                                             (synset_hyponyms s)))
                     (wn_synsets word))
  /\ (wn_synsets word = [] -> extract_hyponyms word = []).
Proof.
  assert (Hflat : extract_hyponyms word
    = flat_map (fun s => flat_map (fun h => map lemma_name (synset_lemmas h))
                                  (synset_hyponyms s))
               (wn_synsets word)).
  { unfold extract_hyponyms.
    rewrite (fold_left_ext _ (fun acc s => acc ++ flat_map (fun h => map lemma_name (synset_lemmas h)) (synset_hyponyms s)))
      by (intros; apply hyponym_loop).
    now rewrite fold_left_append. }
  split; [exact Hflat | split].
  - rewrite Hflat, flat_map_length_sum. f_equal. apply map_ext. intros s.
    rewrite flat_map_length_sum. f_equal. apply map_ext. intros h.
    apply length_map.
  - intros Hnone. now rewrite Hflat, Hnone.
Qed.

Lemma extract_hyponyms_flattens_witness :
  @wn_synsets Examples.wordnet (str "stone") = [] /\
  @extract_hyponyms Examples.wordnet (str "stone") = [] /\
  @extract_hyponyms Examples.wordnet (str "bird")
    = [str "sparrow"; str "true_sparrow"; str "finch"].
Proof.
  split; [reflexivity|]. split.
  - apply (proj2 (proj2 (@extract_hyponyms_flattens Examples.wordnet (str "stone")))).
    reflexivity.
  - rewrite (proj1 (@extract_hyponyms_flattens Examples.wordnet (str "bird"))).
    reflexivity.
Defined.

(** ** Retrieval: C2 *)

Lemma in_firstn_nth {A} (x : A) : forall n l,
  In x (firstn n l) -> exists i, i < n /\ nth_error l i = Some x.
Proof.
  induction n as [|n IH]; intros [|y l] Hin; simpl in Hin; try contradiction.
  destruct Hin as [->|Hin].
  - exists 0. split; [lia | reflexivity].
  - destruct (IH l Hin) as (i & Hi & Hnth). exists (S i). split; [lia | exact Hnth].
Qed.

Lemma substring_store_returns_indexed : returns_indexed Examples.substring_store.
Proof.
  intros docs key ix query k res Hbuild Hsearch. simpl in *.
  destruct key; [discriminate|]. injection Hbuild as <-.
  injection Hsearch as <-. intros d Hd.
  apply in_firstn_nth in Hd as (i & _ & Hd). apply nth_error_In in Hd.
  apply in_app_or in Hd as [Hd|Hd];
    now apply filter_In in Hd as [Hd _].
Qed.

(** C2. Whatever the corpus and the query, when [retrieve_docs] returns,
    the index was built from the first two chunks of the split corpus and
    from nothing else, and, the vector store answering with documents of
    its index only, every document returned is one of those two chunks:
    no chunk from the third on is returned. *)
Theorem retrieve_docs_first_two_chunks {imports : Imports} {store : VectorStore}
    (query : pystr) (self : DocumentProcessor) (w : World)
    (res : list Document) (self' : DocumentProcessor) (w' : World) :
  returns_indexed store ->
  retrieve_docs query self w = (Return res, self', w') ->
  exists txt chunks w1,
    __compile_docs self w = (Return txt, self', w1) /\
    LangChain.split_text splitter txt = Return chunks /\
    trace w' = trace w1 ++
      [Logged INFO (LogText (str "Generating vector store..."));
       Indexed (map (fun doc => mkDocument doc []) (firstn 2 chunks));
       Queried query 6] /\
    forall d, In d res ->
      metadata d = [] /\
      exists i, i < 2 /\ nth_error chunks i = Some (page_content d).
Proof.
  intros Hsound Hret. unfold retrieve_docs in Hret. unfold bind at 1 in Hret.
  destruct (__compile_docs self w) as [[[txt|e] s1] w1] eqn:Hcompile; [|discriminate].
  unfold bind at 1 in Hret. unfold lift at 1 in Hret.
  destruct (LangChain.split_text splitter txt) as [chunks|e] eqn:Hsplit;
    [|discriminate].
  unfold bind at 1 in Hret. unfold __v_store in Hret.
  unfold bind, do_emit, get_world, lift, ret, get_relevant_documents in Hret.
  cbv beta iota in Hret.
  destruct (OpenAIEmbeddings _) as [embedding|e]; [|discriminate].
  destruct (from_documents _ _) as [ix|e] eqn:Hbuild; [|discriminate].
  cbn [fst snd] in Hret.
  destruct (similarity_search ix query top_k_default) as [found|e] eqn:Hsearch;
    [|discriminate].
  injection Hret as <- <- <-.
  exists txt, chunks, w1. split; [reflexivity|]. split; [exact Hsplit|]. split.
  - cbn [trace emit]. rewrite <- !app_assoc. cbn [app].
    destruct chunks as [|c1 [|c2 rest]]; reflexivity.
  - intros d Hd. apply (Hsound _ _ _ _ _ _ Hbuild Hsearch) in Hd.
    rewrite firstn_map in Hd. apply in_map_iff in Hd as (c & <- & Hc).
    split; [reflexivity|]. cbn [page_content]. now apply in_firstn_nth.
Qed.

Lemma retrieve_docs_first_two_chunks_witness :
  let self := mkProcessor (str "post_process_data/a.json") [] in
  returns_indexed Examples.substring_store /\
  exists res self' w',
    @retrieve_docs Examples.imports Examples.substring_store (str "needle")
                   self Examples.three_paragraph_world
      = (Return res, self', w') /\
    map (fun d => hd_error (page_content d)) res = [Some "a"%char; Some "b"%char] /\
    forall d, In d res ->
      exists chunks i,
        length chunks = 3 /\ i < 2 /\ nth_error chunks i = Some (page_content d).
Proof.
  intros self. split; [exact substring_store_returns_indexed|].
  eexists. eexists. eexists. split; [vm_compute; reflexivity|].
  split; [vm_compute; reflexivity|].
  intros d Hd.
  destruct (@retrieve_docs_first_two_chunks Examples.imports Examples.substring_store
              (str "needle") self Examples.three_paragraph_world _ _ _
              substring_store_returns_indexed eq_refl)
    as (txt & chunks & w1 & Hcompile & Hsplit & _ & Hres).
  destruct (Hres d Hd) as (_ & i & Hi & Hnth).
  exists chunks, i. split; [|split; assumption].
  vm_compute in Hcompile. injection Hcompile as <- _.
  vm_compute in Hsplit. injection Hsplit as <-. reflexivity.
Defined.

(** ** The splitter: C7 *)

Module SplitterFacts.
Import LangChain Windows.

Lemma gtb_true a b : Z.gtb a b = true <-> (b < a)%Z.
Proof. apply Z.gtb_lt. Qed.

Lemma gtb_false a b : Z.gtb a b = false <-> (a <= b)%Z.
Proof. rewrite Z.gtb_ltb. apply Z.ltb_ge. Qed.

Section Joined.
Variable sep : pystr.

Lemma len_nonneg s : (0 <= len s)%Z.
Proof. unfold len. lia. Qed.

Lemma len_app a b : len (a ++ b) = (len a + len b)%Z.
Proof. unfold len. rewrite length_app. lia. Qed.

Lemma nonempty_len p : nonempty p = true -> (0 < len p)%Z.
Proof. destruct p; [discriminate|]. unfold len. simpl. lia. Qed.

Lemma jlen_nil : jlen sep [] = 0%Z.
Proof. reflexivity. Qed.

Lemma jlen_single p : jlen sep [p] = len p.
Proof. reflexivity. Qed.

Lemma jlen_cons p cur :
  cur <> [] -> jlen sep (p :: cur) = (len p + len sep + jlen sep cur)%Z.
Proof.
  destruct cur as [|q r]; [congruence|]. intros _. unfold jlen.
  cbn [Text.join]. rewrite !len_app. lia.
Qed.

Lemma jlen_nonneg cur : (0 <= jlen sep cur)%Z.
Proof. apply len_nonneg. Qed.

Lemma jlen_snoc cur d :
  cur <> [] -> jlen sep (cur ++ [d]) = (jlen sep cur + len sep + len d)%Z.
Proof.
  induction cur as [|p cur IH]; [congruence|]. intros _.
  destruct cur as [|q r].
  - simpl app. rewrite jlen_cons by discriminate. rewrite !jlen_single. lia.
  - simpl app. rewrite jlen_cons by discriminate.
    simpl app in IH. rewrite IH by discriminate.
    rewrite (jlen_cons p (q :: r)) by discriminate. lia.
Qed.

Lemma jlen_pos cur :
  cur <> [] -> Forall (fun p => nonempty p = true) cur -> (0 < jlen sep cur)%Z.
Proof.
  destruct cur as [|p cur]; [congruence|]. intros _ Hall.
  inversion Hall as [|? ? Hp _]; subst. apply nonempty_len in Hp.
  destruct cur as [|q r].
  - now rewrite jlen_single.
  - rewrite jlen_cons by discriminate.
    pose proof (jlen_nonneg (q :: r)). pose proof (len_nonneg sep). lia.
Qed.

Lemma jlen_app_le X Y : (jlen sep X <= jlen sep (X ++ Y))%Z.
Proof.
  induction X as [|p X IH].
  - apply jlen_nonneg.
  - destruct X as [|q r].
    + destruct Y as [|y Y]; [simpl; lia|]. simpl app.
      rewrite (jlen_cons p (y :: Y)) by discriminate. rewrite jlen_single.
      pose proof (jlen_nonneg (y :: Y)). pose proof (len_nonneg sep). lia.
    + simpl app. rewrite (jlen_cons p (q :: r)) by discriminate.
      rewrite (jlen_cons p (q :: r ++ Y)) by discriminate. simpl app in IH. lia.
Qed.

Lemma ltb0_length {A} (l : list A) :
  Nat.ltb 0 (length l) = match l with [] => false | _ => true end.
Proof. now destruct l. Qed.

Lemma ltb1_snoc {A} (l : list A) d :
  Nat.ltb 1 (length (l ++ [d])) = match l with [] => false | _ => true end.
Proof.
  destruct l as [|x l]; [reflexivity|]. simpl. rewrite length_app. simpl.
  destruct (length l + 1) eqn:E; [lia | reflexivity].
Qed.

Lemma ltb1_cons {A} (x : A) (l : list A) :
  Nat.ltb 1 (length (x :: l)) = match l with [] => false | _ => true end.
Proof. now destruct l. Qed.

(** The running total after one more piece is the joined length. *)
Lemma total_after_add cur d :
  (jlen sep cur + (len d + sep_if (len sep) (Nat.ltb 1 (length (cur ++ [d])))))%Z
  = jlen sep (cur ++ [d]).
Proof.
  rewrite ltb1_snoc. destruct cur as [|p cur].
  - simpl. rewrite jlen_single. unfold jlen; simpl. lia.
  - rewrite jlen_snoc by discriminate. simpl. lia.
Qed.

Lemma total_before_add cur d :
  (jlen sep cur + len d + sep_if (len sep) (Nat.ltb 0 (length cur)))%Z
  = jlen sep (cur ++ [d]).
Proof.
  rewrite ltb0_length. destruct cur as [|p cur].
  - simpl. rewrite jlen_single. unfold jlen; simpl. lia.
  - rewrite jlen_snoc by discriminate. simpl. lia.
Qed.

End Joined.

Section Loop.
Variable cfg : CharacterTextSplitter.
Variable sep : pystr.
Hypothesis overlap_nonneg : (0 <= chunk_overlap cfg)%Z.

Let sl := len sep.
Let C := chunk_size cfg.
Let O := chunk_overlap cfg.

(** The inner loop stops, on a list that ends [current_doc], no longer
    than the overlap and short enough to take the next piece; it raises no
    [IndexError]. *)
Lemma keep_popping_stops _len : forall cur,
  Forall (fun p => nonempty p = true) cur ->
  exists A' S,
    cur = A' ++ S /\
    keep_popping cfg sl _len (jlen sep cur) cur = Return (jlen sep S, S) /\
    (jlen sep S <= O)%Z /\
    (S = [] \/ (jlen sep S + _len + sl <= C)%Z) /\
    ((jlen sep cur + _len + sep_if sl (Nat.ltb 0 (length cur)) > C)%Z ->
     cur <> [] -> A' <> []) /\
    (forall A'' a, A' = A'' ++ [a] ->
       (O < jlen sep (a :: S))%Z \/ (C < jlen sep (a :: S) + _len + sl)%Z).
Proof.
  induction cur as [|first rest IH]; intros Hok.
  - exists [], []. cbn [keep_popping length]. rewrite jlen_nil.
    rewrite (proj2 (gtb_false 0 (chunk_overlap cfg)) overlap_nonneg).
    rewrite andb_false_r. simpl. repeat split; auto; try (fold O; lia).
    intros [|x A''] a H; discriminate.
  - inversion Hok as [|? ? Hfirst Hrest]; subst.
    assert (Hpos : (0 < jlen sep (first :: rest))%Z)
      by (apply jlen_pos; [discriminate | exact Hok]).
    cbn [keep_popping].
    destruct (Z.gtb (jlen sep (first :: rest)) (chunk_overlap cfg)
              || Z.gtb (jlen sep (first :: rest) + _len
                        + sep_if sl (Nat.ltb 0 (length (first :: rest))))
                       (chunk_size cfg)
                 && Z.gtb (jlen sep (first :: rest)) 0)%bool eqn:Hcond.
    + destruct (IH Hrest) as (A' & S & HAS & Hpop & HO & HC & _ & Hlong).
      exists (first :: A'), S. split; [simpl; now rewrite HAS|].
      split; [|split; [exact HO | split; [exact HC | split; [discriminate|]]]].
      * rewrite <- Hpop. f_equal. rewrite ltb1_cons.
        destruct rest as [|q r].
        -- rewrite jlen_single, jlen_nil. simpl. lia.
        -- rewrite jlen_cons by discriminate. unfold sl. simpl. lia.
      * intros [|x A''] a HA.
        -- injection HA as Ha HA. subst a A'. simpl in HAS. subst rest.
           apply orb_true_iff in Hcond as [Hc|Hc].
           ++ left. apply gtb_true in Hc. exact Hc.
           ++ right. apply andb_true_iff in Hc as [Hc _]. apply gtb_true in Hc.
              rewrite ltb0_length in Hc. cbn [sep_if] in Hc. fold C in Hc. lia.
        -- injection HA as _ HA. exact (Hlong A'' a HA).
    + exists [], (first :: rest). split; [reflexivity|]. split; [reflexivity|].
      apply orb_false_iff in Hcond as [HO Hsize]. apply gtb_false in HO.
      rewrite ltb0_length in Hsize. cbn [sep_if] in Hsize.
      assert (Hfit : (jlen sep (first :: rest) + _len + sl <= C)%Z).
      { apply andb_false_iff in Hsize as [Hs|Hs]; apply gtb_false in Hs;
          fold C in Hs; lia. }
      split; [exact HO|]. split; [now right|]. split.
      * intros Hover _. rewrite ltb0_length in Hover. cbn [sep_if] in Hover.
        fold C in Hover. lia.
      * intros [|x A''] a H; discriminate.
Qed.

Lemma append_doc_app docs x rest :
  append_doc docs x ++ rest = docs ++ append_doc [] x ++ rest.
Proof. destruct x; simpl; [now rewrite <- app_assoc | reflexivity]. Qed.

(** [merge_loop] joins the windows of [windows_from]. *)
Lemma merge_loop_windows : forall splits docs cur total,
  merge_loop cfg sl sep splits docs cur total
  = match windows_from cfg sl splits cur total with
    | Return ws => Return (docs ++ render sep ws)
    | Raise e => Raise e
    end.
Proof.
  induction splits as [|d splits IH]; intros docs cur total.
  - cbn [merge_loop windows_from]. unfold render. cbn [flat_map].
    now rewrite <- append_doc_app, !app_nil_r.
  - cbn [merge_loop windows_from].
    destruct (Z.gtb _ _); [|apply IH].
    destruct (Nat.ltb 0 (length cur)); [|apply IH].
    destruct (keep_popping cfg sl (len d) total cur) as [[total' cur']|e];
      [|reflexivity].
    rewrite IH. destruct (windows_from cfg sl splits _ _) as [ws|e]; [|reflexivity].
    unfold render. cbn [flat_map]. now rewrite append_doc_app.
Qed.

(** The windows: the first continues [current_doc], each fits the chunk
    size unless it is one piece, consecutive ones overlap by whole pieces
    within the overlap, they tile the pieces from [current_doc] on, and no
    [IndexError] is raised. *)
Lemma windows_from_spec : forall splits cur,
  Forall (fun p => nonempty p = true) splits ->
  Forall (fun p => nonempty p = true) cur ->
  fits sep C cur ->
  exists E ws,
    windows_from cfg sl splits cur (jlen sep cur) = Return ((cur ++ E) :: ws) /\
    Forall (fits sep C) ((cur ++ E) :: ws) /\
    LocallySorted (overlaps sep O) ((cur ++ E) :: ws) /\
    (forall w p, In w ((cur ++ E) :: ws) -> In p w -> In p (cur ++ splits)) /\
    Tiles sep C O (cur ++ splits) ((cur ++ E) :: ws).
Proof.
  induction splits as [|d splits IH]; intros cur Hsplits Hcur Hfits.
  - exists [], []. rewrite app_nil_r. cbn [windows_from].
    repeat split; auto.
    + constructor.
    + intros w p [<-|[]] Hp. exact Hp.
    + constructor.
  - inversion Hsplits as [|? ? Hd Hrest]; subst.
    assert (Hadd : forall cur',
      Forall (fun p => nonempty p = true) cur' ->
      fits sep C (cur' ++ [d]) ->
      exists E' ws,
        windows_from cfg sl splits (cur' ++ [d])
          (jlen sep cur' + (len d + sep_if sl (Nat.ltb 1 (length (cur' ++ [d])))))
        = Return ((cur' ++ d :: E') :: ws) /\
        Forall (fits sep C) ((cur' ++ d :: E') :: ws) /\
        LocallySorted (overlaps sep O) ((cur' ++ d :: E') :: ws) /\
        (forall w p, In w ((cur' ++ d :: E') :: ws) -> In p w ->
                     In p (cur' ++ d :: splits)) /\
        Tiles sep C O (cur' ++ d :: splits) ((cur' ++ d :: E') :: ws)).
    { intros cur' Hcur' Hfits'. unfold sl. rewrite total_after_add.
      destruct (IH (cur' ++ [d]) Hrest) as (E' & ws & Hw & Hf & Hs & Hin & Ht); auto.
      { apply Forall_app. split; [exact Hcur' | now constructor]. }
      exists E', ws. rewrite <- !app_assoc in *. simpl in *. auto. }
    cbn [windows_from].
    destruct (Z.gtb (jlen sep cur + len d + sep_if sl (Nat.ltb 0 (length cur)))
                    (chunk_size cfg)) eqn:Hover.
    + destruct (Nat.ltb 0 (length cur)) eqn:Hlen.
      * assert (Hne : cur <> []) by (intros ->; discriminate).
        destruct (keep_popping_stops (len d) cur Hcur)
          as (A' & S & HAS & Hpop & HO & HC & HA' & Hlong).
        rewrite Hpop. rewrite Hlen in HA'.
        assert (HS : Forall (fun p => nonempty p = true) S).
        { rewrite HAS in Hcur. now apply Forall_app in Hcur as [_ HS]. }
        assert (HneA : A' <> []).
        { apply HA'; [|exact Hne]. apply gtb_true in Hover. fold C. lia. }
        destruct (Hadd S HS) as (E' & ws & Hw & Hf & Hs & Hin & Ht).
        { destruct HC as [->|HC]; [right; simpl; lia|]. left.
          destruct S as [|s0 S0].
          - simpl app. rewrite jlen_single. rewrite jlen_nil in HC.
            pose proof (len_nonneg sep). unfold sl in HC. fold C. lia.
          - rewrite jlen_snoc by discriminate. unfold sl in HC. fold C. lia. }
        rewrite Hw. exists [], ((S ++ d :: E') :: ws). rewrite app_nil_r.
        split; [reflexivity|]. split; [now constructor|]. split; [|split].
        -- constructor; [exact Hs|].
           exists A', S, (d :: E'). repeat split; auto. discriminate.
        -- intros w p [<-|Hw'] Hp.
           ++ apply in_or_app. now left.
           ++ specialize (Hin w p Hw' Hp). apply in_app_or in Hin as [Hin|Hin].
              ** apply in_or_app. left. rewrite HAS. apply in_or_app. now right.
              ** apply in_or_app. now right.
        -- assert (Hbig : (C < jlen sep (cur ++ [d]))%Z).
           { rewrite <- (total_before_add sep cur d). rewrite Hlen.
             apply gtb_true in Hover. exact Hover. }
           rewrite HAS in Hbig |- *. rewrite <- !app_assoc in Hbig |- *.
           apply Tiles_next; auto.
           intros A'' a HA. destruct (Hlong A'' a HA) as [Hl|Hl]; [now left|].
           right. change (a :: S ++ [d]) with ((a :: S) ++ [d]).
           rewrite jlen_snoc by discriminate. unfold sl in Hl. fold C. lia.
      * assert (cur = []) by (destruct cur; [reflexivity | discriminate]). subst cur.
        destruct (Hadd []) as (E' & ws & Hw & Hrest');
          [constructor | right; simpl; lia|].
        exists (d :: E'), ws. exact (conj Hw Hrest').
    + destruct (Hadd cur Hcur) as (E' & ws & Hw & Hrest').
      { apply gtb_false in Hover. unfold sl in Hover.
        rewrite total_before_add in Hover. left. exact Hover. }
      exists (d :: E'), ws. exact (conj Hw Hrest').
Qed.

(** A list of pieces that fits the chunk size is one window. *)
Lemma windows_from_one : forall splits cur,
  (jlen sep (cur ++ splits) <= C)%Z ->
  windows_from cfg sl splits cur (jlen sep cur) = Return [cur ++ splits].
Proof.
  induction splits as [|d splits IH]; intros cur Hfit.
  - now rewrite app_nil_r.
  - cbn [windows_from]. unfold sl at 1. rewrite total_before_add.
    assert (Hle : (jlen sep (cur ++ [d]) <= C)%Z).
    { pose proof (jlen_app_le sep (cur ++ [d]) splits) as H.
      rewrite <- app_assoc in H. simpl in H. lia. }
    unfold C in Hle. rewrite (proj2 (gtb_false _ _) Hle).
    unfold sl at 1. rewrite total_after_add. rewrite IH.
    + now rewrite <- app_assoc.
    + now rewrite <- app_assoc.
Qed.

End Loop.

End SplitterFacts.

Module SplitTextFacts.
Import LangChain Windows SplitterFacts.

(** *** [strip] *)

Lemma lstrip_length s : length (lstrip s) <= length s.
Proof.
  induction s as [|c s IH]; simpl; [lia|]. destruct (isspace c); simpl; lia.
Qed.

Lemma strip_length s : length (strip s) <= length s.
Proof.
  unfold strip, rstrip. rewrite length_rev.
  pose proof (lstrip_length (rev (lstrip s))) as H. rewrite length_rev in H.
  pose proof (lstrip_length s). lia.
Qed.

Lemma lstrip_nil s : lstrip s = [] <-> forallb isspace s = true.
Proof.
  induction s as [|c s IH]; simpl; [tauto|].
  destruct (isspace c); simpl; [exact IH|]. split; discriminate.
Qed.

Lemma lstrip_head s c r : lstrip s = c :: r -> isspace c = false.
Proof.
  induction s as [|x s IH]; simpl; [discriminate|].
  destruct (isspace x) eqn:Hx; [exact IH|]. intros H. now injection H as <- _.
Qed.

Lemma forallb_rev {A} (f : A -> bool) l : forallb f (rev l) = forallb f l.
Proof.
  induction l as [|x l IH]; [reflexivity|]. simpl.
  rewrite forallb_app, IH. simpl. rewrite andb_true_r. apply andb_comm.
Qed.

(** [strip] leaves nothing exactly when the text is white space. *)
Lemma strip_nil s : strip s = [] <-> forallb isspace s = true.
Proof.
  unfold strip, rstrip. split.
  - intros H. apply (f_equal (@rev ascii)) in H. rewrite rev_involutive in H.
    simpl in H. apply lstrip_nil in H. rewrite forallb_rev in H.
    destruct (lstrip s) as [|c r] eqn:E; [now apply lstrip_nil|].
    apply lstrip_head in E. simpl in H. rewrite E in H. discriminate.
  - intros H. apply lstrip_nil in H. now rewrite H.
Qed.

(** *** [split] and [join] *)

Lemma startswith_app p : forall s, startswith p s = true -> exists r, s = p ++ r.
Proof.
  induction p as [|x p IH]; intros s H; [now exists s|].
  destruct s as [|y s]; [discriminate|]. simpl in H.
  apply andb_true_iff in H as [Hxy H]. apply Ascii.eqb_eq in Hxy. subst y.
  destruct (IH s H) as [r ->]. now exists r.
Qed.

Lemma split_from_cons sep : forall s skip piece,
  exists p l, split_from sep skip piece s = p :: l.
Proof.
  induction s as [|c s IH]; intros skip piece; simpl; [eauto|].
  destruct skip; [|apply IH]. destruct (startswith sep (c :: s)); [eauto | apply IH].
Qed.

Lemma join_cons sep p q l :
  Text.join sep (p :: q :: l) = p ++ sep ++ Text.join sep (q :: l).
Proof. reflexivity. Qed.

(** [sep.join(text.split(sep)) == text] *)
Lemma split_from_join sep : sep <> [] -> forall s skip piece,
  skip <= length s ->
  Text.join sep (split_from sep skip piece s) = piece ++ skipn skip s.
Proof.
  intros Hsep. induction s as [|c s IH]; intros skip piece Hskip.
  - simpl in Hskip. replace skip with 0 by lia. simpl. now rewrite app_nil_r.
  - destruct skip as [|n].
    + cbn [split_from skipn].
      destruct (startswith sep (c :: s)) eqn:Hstart.
      * destruct (startswith_app _ _ Hstart) as [r Hr].
        destruct sep as [|x sep']; [congruence|]. simpl in Hr.
        injection Hr as Hc Hs. subst c s.
        destruct (split_from_cons (x :: sep') (sep' ++ r) (length (x :: sep') - 1) [])
          as (p & l & Hsplit).
        rewrite Hsplit, join_cons, <- Hsplit.
        rewrite IH by (simpl; rewrite length_app; lia).
        replace (length (x :: sep') - 1) with (length sep') by (simpl; lia).
        rewrite skipn_app, Nat.sub_diag, skipn_all. simpl. reflexivity.
      * rewrite IH by lia. simpl. now rewrite <- app_assoc.
    + cbn [split_from skipn]. apply IH. simpl in Hskip. lia.
Qed.

Lemma jlen_filter_le sep l : (jlen sep (filter nonempty l) <= jlen sep l)%Z.
Proof.
  induction l as [|p l IH]; [simpl; lia|]. simpl filter.
  pose proof (len_nonneg sep) as Hsep.
  destruct l as [|q r].
  - destruct (nonempty p); simpl; [lia|]. rewrite jlen_single. apply len_nonneg.
  - rewrite (jlen_cons sep p (q :: r)) by discriminate.
    destruct (nonempty p) eqn:Hp.
    + destruct (filter nonempty (q :: r)) as [|f F] eqn:HF.
      * rewrite jlen_single. pose proof (jlen_nonneg sep (q :: r)). lia.
      * rewrite jlen_cons by discriminate. lia.
    + pose proof (len_nonneg p). lia.
Qed.

Lemma split_pieces_nonempty text sep :
  Forall (fun p => nonempty p = true) (split_text_with_regex text sep).
Proof.
  unfold split_text_with_regex. apply Forall_forall. intros p Hp.
  now apply filter_In in Hp.
Qed.

Lemma split_pieces_length text sep :
  sep <> [] -> (jlen sep (split_text_with_regex text sep) <= len text)%Z.
Proof.
  intros Hsep. unfold split_text_with_regex.
  destruct sep as [|x sep']; [congruence|].
  eapply Z.le_trans; [apply jlen_filter_le|].
  unfold jlen. rewrite split_from_join by (auto; simpl; lia). simpl. lia.
Qed.

(** White space only. *)
Lemma join_all_space sep l :
  forallb isspace sep = true ->
  forallb isspace (Text.join sep l) = forallb (forallb isspace) l.
Proof.
  intros Hsep. induction l as [|p l IH]; [reflexivity|].
  destruct l as [|q r].
  - simpl. now rewrite andb_true_r.
  - rewrite join_cons, !forallb_app, Hsep, IH. reflexivity.
Qed.

Lemma filter_all_space l :
  forallb (forallb isspace) (filter nonempty l) = forallb (forallb isspace) l.
Proof.
  induction l as [|p l IH]; [reflexivity|]. simpl.
  destruct p as [|c p]; simpl; [exact IH|]. now rewrite IH.
Qed.

Lemma pieces_all_space text sep :
  sep <> [] -> forallb isspace sep = true ->
  forallb isspace (Text.join sep (split_text_with_regex text sep))
  = forallb isspace text.
Proof.
  intros Hne Hsep. unfold split_text_with_regex.
  destruct sep as [|x sep']; [congruence|].
  rewrite (join_all_space (x :: sep') _ Hsep), filter_all_space.
  rewrite <- (join_all_space (x :: sep') _ Hsep).
  rewrite split_from_join by (auto; simpl; lia). reflexivity.
Qed.

Lemma not_all_space s :
  forallb isspace s = false <-> exists c, In c s /\ isspace c = false.
Proof.
  split.
  - intros H. induction s as [|c s IH]; [discriminate|]. simpl in H.
    destruct (isspace c) eqn:Hc.
    + destruct (IH H) as (x & Hx & Hs). exists x. split; [now right | exact Hs].
    + exists c. split; [now left | exact Hc].
  - intros (c & Hin & Hc). destruct (forallb isspace s) eqn:E; [|reflexivity].
    rewrite forallb_forall in E. rewrite (E c Hin) in Hc. discriminate.
Qed.

End SplitTextFacts.

Section ChunkFacts.
Import LangChain Windows SplitterFacts SplitTextFacts.

Let sep : pystr := [newline; newline].

Lemma render_chunk c windows :
  In c (render sep windows) ->
  exists w, In w windows /\ c = strip (Text.join sep w) /\ c <> [].
Proof.
  unfold render. intros H. apply in_flat_map in H as (w & Hw & Hc).
  exists w. split; [exact Hw|]. unfold join_docs in Hc.
  destruct (strip (Text.join sep w)) as [|x r] eqn:E; simpl in Hc; [contradiction|].
  destruct Hc as [<-|[]]. split; [reflexivity | discriminate].
Qed.

Lemma render_one pieces :
  render sep [pieces]
  = match strip (Text.join sep pieces) with [] => [] | t => [t] end.
Proof.
  unfold render, join_docs. cbn [flat_map].
  destruct (strip (Text.join sep pieces)); reflexivity.
Qed.

End ChunkFacts.

(** C7, as stated, fails on each of its three parts.  A corpus of 1001
    characters without a blank line is one chunk of 1001 characters; the
    empty corpus, which is what the array [[]] compiles to, gives no chunk;
    and two paragraphs of 600 characters give two chunks that share
    nothing, the second starting after the end of the first. *)
Lemma chunking_claim_fails :
  LangChain.split_text splitter (repeat "x"%char 1001)
    = Return [repeat "x"%char 1001] /\
  LangChain.split_text splitter [] = Return [] /\
  @__compile_docs Examples.imports (mkProcessor (str "post_process_data/a.json") [])
      (Examples.world [(str "post_process_data/a.json", str "[]")] [])
    = (Return [], mkProcessor (str "post_process_data/a.json") [],
       Examples.world [(str "post_process_data/a.json", str "[]")] []) /\
  LangChain.split_text splitter
      (Examples.paragraph "a" ++ [newline; newline] ++ Examples.paragraph "b")
    = Return [Examples.paragraph "a"; Examples.paragraph "b"].
Proof. repeat split; vm_compute; reflexivity. Qed.

(** C7, amended. [split_text] cuts the corpus at blank lines into pieces
    and joins runs of consecutive pieces into chunks, each run joined with
    blank lines and stripped, the empty results dropped; it always returns.
    The runs tile the pieces in order: the first starts at the first piece,
    the last ends at the last piece, and a run is closed only before a
    piece with which it would be longer than 1000 characters.  The next run
    starts with the pieces that end the closed one, as many of them as join
    to at most 200 characters and leave room for the next piece, never all
    of them and possibly none, and goes on with the next piece: consecutive
    chunks share whole pieces only.  A chunk is at most 1000 characters
    long unless it is a single piece that is itself longer; and a corpus of
    at most 1000 characters gives one run, hence at most one chunk, and
    exactly one when the corpus is not all white space. *)
Theorem split_text_chunks (text : pystr) :
  let sep := [newline; newline] in
  let pieces := LangChain.split_text_with_regex text sep in
  exists windows,
    LangChain.split_text splitter text = Return (Windows.render sep windows) /\
    Windows.Tiles sep 1000 200 pieces windows /\
    Forall (Windows.fits sep 1000) windows /\
    LocallySorted (Windows.overlaps sep 200) windows /\
    (forall c, In c (Windows.render sep windows) ->
       (LangChain.len c <= 1000)%Z \/
       exists p, In p pieces /\ (1000 < LangChain.len p)%Z /\ c = strip p) /\
    ((LangChain.len text <= 1000)%Z ->
       windows = [pieces] /\
       length (Windows.render sep windows) <= 1 /\
       (length (Windows.render sep windows) = 1 <->
        exists c, In c text /\ isspace c = false)).
Proof.
  intros sep pieces. subst sep.
  assert (Hoverlap : (0 <= LangChain.chunk_overlap splitter)%Z) by (simpl; lia).
  destruct (SplitterFacts.windows_from_spec splitter [newline; newline] Hoverlap pieces [])
    as (E & ws & Hw & Hfits & Hsorted & Hin & Htiles).
  { apply SplitTextFacts.split_pieces_nonempty. }
  { constructor. }
  { right. simpl. lia. }
  exists (E :: ws). simpl app in *.
  split; [|split; [exact Htiles | split; [exact Hfits | split; [exact Hsorted | split]]]].
  - unfold LangChain.split_text, LangChain.merge_splits.
    rewrite SplitterFacts.merge_loop_windows.
    change (LangChain.separator splitter) with [newline; newline]. fold pieces.
    change 0%Z with (Windows.jlen [newline; newline] []). now rewrite Hw.
  - intros c Hc. apply render_chunk in Hc as (w & Hwin & -> & Hne).
    pose proof (SplitTextFacts.strip_length (Text.join [newline; newline] w)) as Hlen.
    rewrite Forall_forall in Hfits. destruct (Hfits w Hwin) as [Hfit | Hone].
    + left. change (LangChain.chunk_size splitter) with 1000%Z in Hfit.
      unfold Windows.jlen, LangChain.len in *. lia.
    + destruct w as [|p [|q r]]; [now contradiction Hne | | simpl in Hone; lia].
      simpl Text.join in *.
      destruct (Z.leb (LangChain.len p) 1000) eqn:Hp.
      * left. apply Z.leb_le in Hp. unfold LangChain.len in *. lia.
      * right. apply Z.leb_gt in Hp. exists p. split; [|split; auto].
        apply (Hin [p] p); [exact Hwin | now left].
  - intros Htext.
    assert (Hone : Windows.windows_from splitter (LangChain.len [newline; newline]) pieces []
                     (Windows.jlen [newline; newline] []) = Return [[] ++ pieces]).
    { apply SplitterFacts.windows_from_one. simpl app.
      assert (Hsep : [newline; newline] <> ([] : pystr)) by discriminate.
      pose proof (SplitTextFacts.split_pieces_length text [newline; newline] Hsep) as H.
      change (LangChain.chunk_size splitter) with 1000%Z.
      fold pieces in H. lia. }
    rewrite Hw in Hone. injection Hone as -> ->.
    split; [reflexivity|]. rewrite render_one.
    assert (Hspace : forallb isspace (Text.join [newline; newline] pieces)
                     = forallb isspace text)
      by (apply SplitTextFacts.pieces_all_space; [discriminate | reflexivity]).
    pose proof (SplitTextFacts.strip_nil (Text.join [newline; newline] pieces)) as Hnil.
    rewrite Hspace in Hnil. rewrite <- SplitTextFacts.not_all_space.
    destruct (strip (Text.join [newline; newline] pieces)) as [|x r].
    + split; [simpl; lia|]. split; [discriminate|].
      intros H. rewrite (proj1 Hnil eq_refl) in H. discriminate.
    + split; [simpl; lia|]. split; [|reflexivity].
      intros _. destruct (forallb isspace text); [|reflexivity].
      destruct Hnil as [_ Hnil]. discriminate (Hnil eq_refl).
Qed.

(* ------------------------------------------------------------------ *)
(** * Further properties *)

(** ** Construction *)

Module OsPathFacts.
Import OsPath.

Lemma no_slash_cons c s :
  no_slash (c :: s) = negb (Ascii.eqb slash c) && no_slash s.
Proof. unfold no_slash. simpl. now rewrite negb_orb. Qed.

Lemma no_slash_app a b : no_slash (a ++ b) = no_slash a && no_slash b.
Proof. unfold no_slash. now rewrite existsb_app, negb_orb. Qed.

(** [basename] returns what has no slash. *)
Lemma basename_no_slash p : no_slash (basename p) = true.
Proof.
  induction p as [|c p IH]; [reflexivity|]. cbn [basename].
  destruct (existsb (Ascii.eqb slash) p) eqn:Hp; [exact IH|].
  destruct (Ascii.eqb c slash) eqn:Hc.
  - unfold no_slash. now rewrite Hp.
  - rewrite no_slash_cons. unfold no_slash. rewrite Hp.
    rewrite Ascii.eqb_sym, Hc. reflexivity.
Qed.

(** [replace] puts no slash where neither the text nor the replacement
    has one. *)
Lemma replace_from_no_slash old new : forall s skip,
  no_slash new = true -> no_slash s = true ->
  no_slash (replace_from old new skip s) = true.
Proof.
  induction s as [|c s IH]; intros skip Hnew Hs; [reflexivity|].
  rewrite no_slash_cons in Hs. apply andb_true_iff in Hs as [Hc Hs].
  cbn [replace_from]. destruct skip as [|n]; [|now apply IH].
  destruct (startswith old (c :: s)).
  - rewrite no_slash_app, Hnew. now apply IH.
  - rewrite no_slash_cons, Hc. now apply IH.
Qed.

(** [replace] changes nothing in a text in which [old] does not occur. *)
Lemma replace_absent old new : forall s,
  contains old s = false -> replace old new s = s.
Proof.
  unfold replace. induction s as [|c s IH]; intros H; [reflexivity|].
  cbn [contains] in H. apply orb_false_iff in H as [Hstart Hrest].
  cbn [replace_from]. rewrite Hstart. now rewrite IH.
Qed.

(** [join] puts the name right under the directory. *)
Lemma join_under dir name :
  no_slash name = true ->
  join dir name = dir ++ name \/ join dir name = dir ++ [slash] ++ name.
Proof.
  intros Hname. unfold join.
  destruct name as [|c name].
  - simpl. destruct (_ || _); auto.
  - rewrite no_slash_cons in Hname. apply andb_true_iff in Hname as [Hc _].
    cbn [startswith]. rewrite Ascii.eqb_sym in Hc.
    apply negb_true_iff in Hc. rewrite Ascii.eqb_sym in Hc. rewrite Hc.
    cbn [andb]. destruct (_ || _); auto.
Qed.

End OsPathFacts.

(** X1. A path that exists and does not contain ['post_process_data'] is
    rerouted: when the extraction returns and [COMPILED_DOCS_PATH] is set,
    the object is built with [docs] empty and with [file_path] the
    directory of the variable joined with the base name of the path in
    which every ['.xml'] is replaced by ['.json'].  That name has no slash,
    so the file is looked for right under the directory, wherever the
    given path lay; a base name without ['.xml'] is kept as it is. *)
Theorem init_reroutes_under_compiled_dir {imports : Imports}
    (path dir : pystr) (w : World) (fs' : filesystem) :
  path_exists w path = true ->
  contains (str "post_process_data") path = false ->
  from_xml path (env w) (fs w) = (Return tt, fs') ->
  getenv w (str "COMPILED_DOCS_PATH") = Some dir ->
  let name := OsPath.replace (str ".xml") (str ".json") (OsPath.basename path) in
  (exists w', construct path w = (Return (mkProcessor (OsPath.join dir name) []), w')
              /\ fs w' = fs') /\
  no_slash name = true /\
  (OsPath.join dir name = dir ++ name \/
   OsPath.join dir name = dir ++ [OsPath.slash] ++ name) /\
  (contains (str ".xml") (OsPath.basename path) = false ->
   name = OsPath.basename path).
Proof.
  intros Hexists Hsub Hxml Henv name.
  assert (Hname : no_slash name = true).
  { apply OsPathFacts.replace_from_no_slash; [reflexivity|].
    apply OsPathFacts.basename_no_slash. }
  split; [|split; [exact Hname | split]].
  - unfold construct, __init__. rewrite Hexists, Hsub. cbn [negb].
    cbn [env fs emit]. rewrite Hxml. unfold getenv in *. cbn [env set_fs emit].
    rewrite Henv. eexists. split; reflexivity.
  - now apply OsPathFacts.join_under.
  - intros Habsent. now apply OsPathFacts.replace_absent.
Qed.

Lemma init_reroutes_under_compiled_dir_witness :
  let w := Examples.world [(str "raw/1999/b.xml", str "<x/>")]
                          [(str "COMPILED_DOCS_PATH", str "out")] in
  path_exists w (str "raw/1999/b.xml") = true /\
  contains (str "post_process_data") (str "raw/1999/b.xml") = false /\
  getenv w (str "COMPILED_DOCS_PATH") = Some (str "out") /\
  exists w',
    @construct Examples.imports (str "raw/1999/b.xml") w
      = (Return (mkProcessor (str "out/b.json") []), w').
Proof.
  intros w. split; [reflexivity|]. split; [reflexivity|]. split; [reflexivity|].
  destruct (proj1 (@init_reroutes_under_compiled_dir Examples.imports
                     (str "raw/1999/b.xml") (str "out") w _
                     eq_refl eq_refl eq_refl eq_refl)) as (w' & Hc & _).
  exists w'. exact Hc.
Defined.

(** X2. For a path that exists and does not contain ['post_process_data'],
    failure comes after the extraction: [__init__] has logged its warning
    and called [from_xml] on the path, and then raises what the extraction
    raised, or, when the extraction returned and [COMPILED_DOCS_PATH] is not
    set, the [TypeError] of [os.path.join]; no object is built, and what the
    extraction wrote stays written. *)
Theorem init_fails_after_extraction {imports : Imports}
    (path : pystr) (w : World) (out : outcome unit) (fs' : filesystem) :
  path_exists w path = true ->
  contains (str "post_process_data") path = false ->
  from_xml path (env w) (fs w) = (out, fs') ->
  (exists e, out = Raise e) \/ getenv w (str "COMPILED_DOCS_PATH") = None ->
  let w' := mkWorld fs' (env w)
              (trace w ++ [Logged WARNING (LogText (warning_message path));
                           Extracted path]) in
  construct path w
  = (Raise (match out with Raise e => e | Return _ => TypeError end), w').
Proof.
  intros Hexists Hsub Hxml Hfail w'.
  unfold construct, __init__. rewrite Hexists, Hsub. cbn [negb].
  cbn [env fs emit]. rewrite Hxml. unfold w', set_fs, emit. cbn [env fs trace].
  rewrite <- app_assoc. cbn [app].
  destruct out as [u|e]; [|reflexivity].
  destruct Hfail as [[e He]|Henv]; [discriminate|].
  unfold getenv in *. cbn [env]. now rewrite Henv.
Qed.

Lemma init_fails_after_extraction_witness :
  let w := Examples.world [(str "raw/b.xml", str "<x/>")] [] in
  path_exists w (str "raw/b.xml") = true /\
  getenv w (str "COMPILED_DOCS_PATH") = None /\
  exists w',
    @construct Examples.imports (str "raw/b.xml") w = (Raise TypeError, w') /\
    trace w' = [Logged WARNING (LogText (warning_message (str "raw/b.xml")));
                Extracted (str "raw/b.xml")].
Proof.
  intros w. split; [reflexivity|]. split; [reflexivity|].
  eexists. split.
  - exact (@init_fails_after_extraction Examples.imports (str "raw/b.xml") w
             (Raise TypeError) _ eq_refl eq_refl eq_refl
             (or_introl (ex_intro _ _ eq_refl))).
  - reflexivity.
Defined.

(** ** Word frequency *)

Module FrequencyFacts.
Import Counter CounterFacts.

Lemma text_eqb_sym a b : Text.eqb a b = Text.eqb b a.
Proof.
  destruct (Text.eqb a b) eqn:E.
  - apply text_eqb_eq in E. subst. symmetry. apply text_eqb_refl.
  - apply text_eqb_neq in E. symmetry. apply text_eqb_neq. congruence.
Qed.

Lemma mem_In w l : mem w l = true <-> In w l.
Proof.
  unfold mem. rewrite existsb_exists. split.
  - intros (x & Hx & He). apply text_eqb_eq in He. now subst.
  - intros H. exists w. split; [exact H | apply text_eqb_refl].
Qed.

Lemma mem_ext w l1 l2 :
  (forall x, In x l1 <-> In x l2) -> mem w l1 = mem w l2.
Proof.
  intros H. destruct (mem w l1) eqn:E1, (mem w l2) eqn:E2; try reflexivity.
  - apply mem_In, H, mem_In in E1. congruence.
  - apply mem_In, H, mem_In in E2. congruence.
Qed.

Lemma keys_incr w c :
  keys (incr w c) = if mem w (keys c) then keys c else keys c ++ [w].
Proof.
  induction c as [|[k n] c IH]; [reflexivity|]. cbn [incr].
  unfold mem in *. cbn [keys map fst existsb]. fold (keys c).
  rewrite (text_eqb_sym w k).
  destruct (Text.eqb k w); [reflexivity|]. cbn [orb keys map fst].
  fold (keys (incr w c)) (keys c). rewrite IH.
  now destruct (existsb (Text.eqb w) (keys c)).
Qed.

Lemma filter_filter {A} (f g : A -> bool) l :
  filter f (filter g l) = filter (fun x => g x && f x) l.
Proof.
  induction l as [|x l IH]; [reflexivity|]. simpl.
  destruct (g x); simpl; [destruct (f x)|]; now rewrite IH.
Qed.

(** The keys of the counter: what was there, then the new tokens in the
    order in which they are first seen. *)
Lemma keys_fold tokens : forall c,
  keys (fold_left (fun c w => incr w c) tokens c)
  = keys c ++ filter (fun w => negb (mem w (keys c))) (first_seen tokens).
Proof.
  induction tokens as [|t tokens IH]; intros c.
  - simpl. now rewrite app_nil_r.
  - cbn [fold_left first_seen filter]. rewrite IH, keys_incr, filter_filter.
    destruct (mem t (keys c)) eqn:Ht; cbn [negb].
    + f_equal. apply filter_ext. intros w.
      destruct (Text.eqb w t) eqn:E; [|reflexivity].
      apply text_eqb_eq in E. subst. now rewrite Ht.
    + rewrite <- app_assoc. cbn [app]. do 2 f_equal.
      apply filter_ext. intros w. unfold mem. rewrite existsb_app. cbn [existsb].
      rewrite orb_false_r, negb_orb. apply andb_comm.
Qed.

Lemma keys_of_list tokens : keys (of_list tokens) = first_seen tokens.
Proof.
  unfold of_list. rewrite keys_fold. simpl.
  induction (first_seen tokens) as [|w l IH]; simpl; congruence.
Qed.

(** A counter is its keys with their counts. *)
Lemma items_of_keys c :
  NoDup (keys c) -> c = map (fun k => (k, get k c)) (keys c).
Proof.
  induction c as [|[k n] c IH]; intros Hnd; [reflexivity|].
  inversion Hnd as [|? ? Hnot Hnd']; subst.
  cbn [keys map fst]. rewrite get_cons, text_eqb_refl. f_equal.
  rewrite (IH Hnd') at 1. apply map_ext_in. intros k' Hk'.
  rewrite get_cons. destruct (Text.eqb k k') eqn:E; [|reflexivity].
  apply text_eqb_eq in E. subst. contradiction.
Qed.

Lemma del_absent w c : ~ In w (keys c) -> del w c = c.
Proof.
  induction c as [|[k n] c IH]; intros Hnot; [reflexivity|]. cbn [del].
  destruct (Text.eqb k w) eqn:E.
  - apply text_eqb_eq in E. subst. exfalso. apply Hnot. now left.
  - f_equal. apply IH. intros H. apply Hnot. now right.
Qed.

Lemma del_filter w c :
  NoDup (keys c) -> del w c = filter (fun kn => negb (Text.eqb (fst kn) w)) c.
Proof.
  induction c as [|[k n] c IH]; intros Hnd; [reflexivity|].
  inversion Hnd as [|? ? Hnot Hnd']; subst. cbn [del filter fst].
  destruct (Text.eqb k w) eqn:E; cbn [negb].
  - apply text_eqb_eq in E. subst.
    rewrite <- (IH Hnd'). symmetry. now apply del_absent.
  - f_equal. now apply IH.
Qed.

Lemma del_all_filter stop : forall c,
  NoDup (keys c) ->
  fold_left (fun c w => del w c) stop c
  = filter (fun kn => negb (mem (fst kn) stop)) c.
Proof.
  induction stop as [|s stop IH]; intros c Hnd.
  - simpl. symmetry. apply forallb_filter_id. now apply forallb_forall.
  - cbn [fold_left]. rewrite IH by now apply del_nodup.
    rewrite del_filter by assumption. rewrite filter_filter.
    apply filter_ext. intros [k n]. unfold mem. cbn [existsb fst].
    now rewrite negb_orb.
Qed.

Lemma first_seen_incl tokens w : In w (first_seen tokens) -> In w tokens.
Proof.
  induction tokens as [|t tokens IH]; [tauto|]. cbn [first_seen].
  intros [->|H]; [now left|]. right. apply IH. now apply filter_In in H.
Qed.

End FrequencyFacts.

(** The whole of [__word_frequency] as one filter over the tokens in the
    order in which they are first seen. *)
Lemma word_frequency_as_filter (stop : list pystr) (text : pystr) (top_freq : Z) :
  let tokens := tokenize word_pattern (lower text) in
  __word_frequency stop text top_freq
  = filter (fun w => negb (mem w stop)
                     && Z.eqb (Z.of_nat (count_occ Text.eq_dec tokens w)) top_freq)
           (first_seen tokens).
Proof.
  intros tokens. unfold __word_frequency. fold tokens.
  pose proof (CounterFacts.of_list_nodup tokens) as Hnd.
  rewrite FrequencyFacts.del_all_filter by assumption.
  unfold Counter.items. rewrite FrequencyFacts.filter_filter.
  rewrite (FrequencyFacts.items_of_keys _ Hnd) at 1.
  rewrite FrequencyFacts.keys_of_list.
  induction (first_seen tokens) as [|w l IH]; [reflexivity|].
  cbn [map filter fst snd]. rewrite CounterFacts.of_list_get.
  destruct (negb (mem w stop) && _)%bool; cbn [map fst]; now rewrite IH.
Qed.

Lemma lower_char_idempotent c : lower_char (lower_char c) = lower_char c.
Proof.
  destruct c as [b0 b1 b2 b3 b4 b5 b6 b7].
  destruct b0, b1, b2, b3, b4, b5, b6, b7; reflexivity.
Qed.

Lemma lower_idempotent s : lower (lower s) = lower s.
Proof.
  unfold lower. rewrite map_map. apply map_ext. apply lower_char_idempotent.
Qed.

(** A match that [scan] reports is a piece of the text. *)
Lemma scan_match_substring p m : forall s skip prev,
  In (Re.Match m) (Re.scan p skip prev s) -> exists pre post, s = pre ++ m ++ post.
Proof.
  induction s as [|c s IH]; intros skip prev H; simpl in H; [contradiction|].
  assert (Hrest : forall skip' prev',
            In (Re.Match m) (Re.scan p skip' prev' s) ->
            exists pre post, c :: s = pre ++ m ++ post).
  { intros skip' prev' H'. destruct (IH _ _ H') as (pre & post & ->).
    now exists (c :: pre), post. }
  destruct skip as [|n]; [|eauto].
  destruct (Re.match_here p prev (c :: s)) as [[[|x m'] r]|] eqn:E.
  - destruct H as [H|H]; [discriminate | eauto].
  - destruct H as [H|H]; [|eauto]. injection H as <-.
    apply ReFacts.match_here_prefix in E. exists [], r. now rewrite E.
  - destruct H as [H|H]; [discriminate | eauto].
Qed.

Lemma token_substring text w :
  In w (tokenize word_pattern text) -> exists pre post, text = pre ++ w ++ post.
Proof.
  unfold tokenize, Re.findall. intros H. apply in_flat_map in H as (g & Hg & Hw).
  destruct g as [c|m]; simpl in Hw; [contradiction|]. destruct Hw as [<-|[]].
  eapply scan_match_substring; eauto.
Qed.

(** X3. [__word_frequency] returns its words in the order in which they
    first occur in the text: the result is the list of distinct tokens, in
    that order, filtered by not being a stopword and by occurring exactly
    [top_freq] times. *)
Theorem word_frequency_in_order_of_first_occurrence
    (stop : list pystr) (text : pystr) (top_freq : Z) :
  let tokens := tokenize word_pattern (lower text) in
  __word_frequency stop text top_freq
  = filter (fun w => negb (mem w stop)
                     && Z.eqb (Z.of_nat (count_occ Text.eq_dec tokens w)) top_freq)
           (first_seen tokens).
Proof. exact (word_frequency_as_filter stop text top_freq). Qed.

Lemma filter_none {A} (f : A -> bool) l :
  (forall x, In x l -> f x = false) -> filter f l = [].
Proof.
  induction l as [|x l IH]; intros H; [reflexivity|]. simpl.
  rewrite (H x (or_introl eq_refl)). apply IH. intros y Hy. apply H. now right.
Qed.

(** X4. With a threshold of zero or less [__word_frequency] returns
    nothing, whatever the text: a word that is counted occurs at least
    once. *)
Theorem word_frequency_threshold_below_one
    (stop : list pystr) (text : pystr) (top_freq : Z) :
  (top_freq <= 0)%Z -> __word_frequency stop text top_freq = [].
Proof.
  intros Hle. rewrite word_frequency_as_filter. apply filter_none.
  intros w Hw. apply FrequencyFacts.first_seen_incl in Hw.
  apply (count_occ_In Text.eq_dec) in Hw.
  replace (Z.eqb _ top_freq) with false; [apply andb_false_r|].
  symmetry. apply Z.eqb_neq. lia.
Qed.

Lemma word_frequency_threshold_below_one_witness :
  (0 <= 0)%Z /\
  __word_frequency [str "the"] (str "the cat saw the cat") 0 = [].
Proof.
  split; [lia|].
  apply (word_frequency_threshold_below_one [str "the"] (str "the cat saw the cat") 0).
  lia.
Defined.

(** X5. The result depends on the stopwords as a set: two tables with the
    same words, in whatever order and however often repeated, give the same
    result, so the order in which the set is walked does not matter. *)
Theorem word_frequency_stopwords_as_set
    (stop1 stop2 : list pystr) (text : pystr) (top_freq : Z) :
  (forall w, In w stop1 <-> In w stop2) ->
  __word_frequency stop1 text top_freq = __word_frequency stop2 text top_freq.
Proof.
  intros Hsame. rewrite !word_frequency_as_filter. apply filter_ext.
  intros w. now rewrite (FrequencyFacts.mem_ext w stop1 stop2 Hsame).
Qed.

Lemma word_frequency_stopwords_as_set_witness :
  (forall w, In w [str "the"; str "and"] <-> In w [str "and"; str "the"; str "and"]) /\
  __word_frequency [str "the"; str "and"] (str "the cat and the dog and the cat") 2
  = __word_frequency [str "and"; str "the"; str "and"]
      (str "the cat and the dog and the cat") 2.
Proof.
  assert (H : forall w, In w [str "the"; str "and"]
                        <-> In w [str "and"; str "the"; str "and"])
    by (intros w; simpl; tauto).
  split; [exact H|].
  exact (word_frequency_stopwords_as_set _ _ _ 2 H).
Defined.

(** X6. Counting ignores case: the text and its lowercase form give the
    same result. *)
Theorem word_frequency_ignores_case
    (stop : list pystr) (text : pystr) (top_freq : Z) :
  __word_frequency stop (lower text) top_freq = __word_frequency stop text top_freq.
Proof. unfold __word_frequency. now rewrite lower_idempotent. Qed.

(** X7. Every word returned is in lowercase and is a piece of the
    lowercased text. *)
Theorem word_frequency_words_occur_lowercase
    (stop : list pystr) (text : pystr) (top_freq : Z) (w : pystr) :
  In w (__word_frequency stop text top_freq) ->
  lower w = w /\ exists pre post, lower text = pre ++ w ++ post.
Proof.
  rewrite word_frequency_as_filter. intros Hw.
  apply filter_In in Hw as [Hw _]. apply FrequencyFacts.first_seen_incl in Hw.
  apply token_substring in Hw as (pre & post & Heq).
  split; [|now exists pre, post].
  unfold lower in *. rewrite <- (map_id w) at 2. apply map_ext_in.
  intros c Hc.
  assert (Hin : In c (map lower_char text))
    by (rewrite Heq; apply in_or_app; right; apply in_or_app; now left).
  apply in_map_iff in Hin as (c0 & <- & _). apply lower_char_idempotent.
Qed.

Lemma word_frequency_words_occur_lowercase_witness :
  In (str "cat") (__word_frequency [str "the"] (str "The CAT saw the Cat") 2) /\
  lower (str "cat") = str "cat".
Proof.
  assert (H : In (str "cat")
                 (__word_frequency [str "the"] (str "The CAT saw the Cat") 2))
    by (left; reflexivity).
  split; [exact H|].
  exact (proj1 (word_frequency_words_occur_lowercase _ _ _ _ H)).
Defined.

(** ** Compiling the corpus *)

Section CompileCases.
Context {imports : Imports}.

Lemma load_articles_cases self w :
  load_articles self w
  = (match open_read w (file_path self) with
     | Return contents => json_load contents
     | Raise e => Raise e
     end, self, w).
Proof.
  unfold load_articles, bind, get_self, get_world, lift.
  destruct (open_read w (file_path self)) as [c|e]; [|reflexivity].
  now destruct (json_load c).
Qed.

(** [__compile_docs] stage by stage. *)
Lemma compile_docs_cases self w :
  __compile_docs self w
  = match open_read w (file_path self) with
    | Raise e => (Raise e, self, w)
    | Return contents =>
        match json_load contents with
        | Raise e =>
            if is_JSONDecodeError e
            then (Raise (ValueError (invalid_json_message (file_path self)) (Some e)),
                  self, emit (Logged ERROR (LogExn e)) w)
            else (Raise e, self, w)
        | Return articles => after_load articles self w
        end
    end.
Proof.
  pose proof (load_articles_cases self w) as Hload.
  destruct (open_read w (file_path self)) as [c|e] eqn:Hopen.
  - destruct (json_load c) as [a|e].
    + now apply compile_docs_loaded.
    + now apply compile_docs_load_raises.
  - rewrite (compile_docs_load_raises self w e Hload).
    unfold open_read in Hopen.
    destruct (fs w (file_path self)) as [[c|]|]; try discriminate;
      injection Hopen as <-; reflexivity.
Qed.

Lemma after_load_cases articles self w :
  after_load articles self w
  = match iterate articles with
    | Raise e => (Raise e, self, w)
    | Return elements =>
        match comprehension truncated_fulltext elements with
        | Raise e => (Raise e, self, w)
        | Return d =>
            match comprehension as_str d with
            | Raise e => (Raise e, mkProcessor (file_path self) d, w)
            | Return parts =>
                (Return (Re.sub pattern [] (Text.join (str ".") parts)),
                 mkProcessor (file_path self) d, w)
            end
        end
    end.
Proof.
  unfold after_load, bind, lift, set_docs, get_self, ret.
  destruct (iterate articles) as [els|e]; [|reflexivity].
  destruct (comprehension truncated_fulltext els) as [d|e]; [|reflexivity].
  cbn [docs]. now destruct (comprehension as_str d).
Qed.

Lemma comprehension_sliced elements vals :
  Forall2 sliced elements vals ->
  comprehension truncated_fulltext elements = Return vals.
Proof.
  induction 1 as [|art v elements vals Hs _ IH]; [reflexivity|].
  cbn [comprehension]. rewrite IH.
  destruct Hs as [items s Hget | items l Hget];
    unfold truncated_fulltext, subscript_fulltext; rewrite Hget; reflexivity.
Qed.

Lemma comprehension_as_str_raises vals :
  forallb is_str vals = false -> comprehension as_str vals = Raise TypeError.
Proof.
  induction vals as [|v vals IH]; [discriminate|]. cbn [forallb comprehension].
  destruct v; cbn [is_str as_str andb]; try reflexivity.
  intros H. now rewrite (IH H).
Qed.

End CompileCases.

(** X8. [__compile_docs] catches the decode error of the parser and
    nothing else: when the file is missing or is a directory, or when the
    parser raises an exception of another class, that exception is raised
    as it is, nothing is logged and the object is unchanged. *)
Theorem compile_docs_passes_other_errors {imports : Imports}
    (self : DocumentProcessor) (w : World) :
  (fs w (file_path self) = None ->
   __compile_docs self w
   = (Raise (FileNotFoundError (str "No such file or directory")), self, w)) /\
  (fs w (file_path self) = Some Dir ->
   __compile_docs self w = (Raise (IsADirectoryError (file_path self)), self, w)) /\
  (forall contents e,
     fs w (file_path self) = Some (File contents) ->
     json_load contents = Raise e ->
     is_JSONDecodeError e = false ->
     __compile_docs self w = (Raise e, self, w)).
Proof.
  repeat split.
  - intros H. rewrite compile_docs_cases. unfold open_read. now rewrite H.
  - intros H. rewrite compile_docs_cases. unfold open_read. now rewrite H.
  - intros contents e Hfile Hparse Hcls. rewrite compile_docs_cases.
    unfold open_read. now rewrite Hfile, Hparse, Hcls.
Qed.

Lemma compile_docs_passes_other_errors_witness :
  let w := Examples.world [] [] in
  let self := mkProcessor (str "out/b.json") [VStr (str "old")] in
  fs w (file_path self) = None /\
  @__compile_docs Examples.imports self w
  = (Raise (FileNotFoundError (str "No such file or directory")), self, w).
Proof.
  intros w self. split; [reflexivity|].
  exact (proj1 (@compile_docs_passes_other_errors Examples.imports self w) eq_refl).
Defined.

(** X9. The file has to hold an array.  When it parses to a scalar, to an
    object with a key or to a string with a character, [__compile_docs]
    raises [TypeError] and leaves [docs] as it was; an empty object or an
    empty string is taken for an empty array and gives the empty corpus. *)
Theorem compile_docs_needs_an_array {imports : Imports}
    (self : DocumentProcessor) (w : World) (contents : pystr) (v : value) :
  fs w (file_path self) = Some (File contents) ->
  json_load contents = Return v ->
  (not_an_array v = true -> __compile_docs self w = (Raise TypeError, self, w)) /\
  (v = VList [] \/ v = VDict [] \/ v = VStr [] ->
   __compile_docs self w = (Return [], mkProcessor (file_path self) [], w)).
Proof.
  intros Hfile Hparse. rewrite compile_docs_cases. unfold open_read.
  rewrite Hfile, Hparse, after_load_cases. split.
  - intros Hv. destruct v as [| | | | s | l | items]; try discriminate;
      try reflexivity.
    + destruct s as [|c s]; [discriminate | reflexivity].
    + destruct items as [|[k x] items]; [discriminate | reflexivity].
  - intros [->|[->| ->]]; reflexivity.
Qed.

Lemma compile_docs_needs_an_array_witness :
  let contents := js "{'fulltext': 'One.'}" in
  let w := Examples.world [(str "post_process_data/a.json", contents)] [] in
  let self := mkProcessor (str "post_process_data/a.json") [] in
  fs w (file_path self) = Some (File contents) /\
  @json_load Examples.imports contents
    = Return (VDict [(str "fulltext", VStr (str "One."))]) /\
  @__compile_docs Examples.imports self w = (Raise TypeError, self, w).
Proof.
  intros contents w self. split; [reflexivity|]. split; [reflexivity|].
  exact (proj1 (@compile_docs_needs_an_array Examples.imports self w contents _
                  eq_refl eq_refl) eq_refl).
Defined.

(** X10. A failed compile can leave [docs] changed.  When every record has
    a ['fulltext'] that is a string or an array, and one of them is an
    array, the slices are stored in [docs] first and the join then raises
    [TypeError]. *)
Theorem compile_docs_join_failure_keeps_new_docs {imports : Imports}
    (self : DocumentProcessor) (w : World) (contents : pystr)
    (elements vals : list value) :
  fs w (file_path self) = Some (File contents) ->
  json_load contents = Return (VList elements) ->
  Forall2 sliced elements vals ->
  forallb is_str vals = false ->
  __compile_docs self w = (Raise TypeError, mkProcessor (file_path self) vals, w).
Proof.
  intros Hfile Hparse Hsliced Hlist. rewrite compile_docs_cases. unfold open_read.
  rewrite Hfile, Hparse, after_load_cases. cbn [iterate].
  rewrite (comprehension_sliced _ _ Hsliced).
  now rewrite (comprehension_as_str_raises _ Hlist).
Qed.

Lemma compile_docs_join_failure_keeps_new_docs_witness :
  let contents := js "[{'fulltext': 'One.'}, {'fulltext': [1, 2]}]" in
  let w := Examples.world [(str "post_process_data/a.json", contents)] [] in
  let self := mkProcessor (str "post_process_data/a.json") [] in
  fs w (file_path self) = Some (File contents) /\
  @json_load Examples.imports contents
    = Return (VList [VDict [(str "fulltext", VStr (str "One."))];
                     VDict [(str "fulltext", VList [VInt 1; VInt 2])]]) /\
  @__compile_docs Examples.imports self w
    = (Raise TypeError,
       mkProcessor (str "post_process_data/a.json")
                   [VStr (str "One."); VList [VInt 1; VInt 2]], w).
Proof.
  intros contents w self. split; [reflexivity|]. split; [reflexivity|].
  refine (@compile_docs_join_failure_keeps_new_docs Examples.imports self w contents
            _ [VStr (str "One."); VList [VInt 1; VInt 2]] eq_refl eq_refl _ eq_refl).
  constructor; [|constructor; [|constructor]].
  - exact (sliced_str [(str "fulltext", VStr (str "One."))] (str "One.") eq_refl).
  - exact (sliced_list [(str "fulltext", VList [VInt 1; VInt 2])] [VInt 1; VInt 2]
             eq_refl).
Defined.

(** X11. [__compile_docs] only reads: it never changes a file, the
    environment or [file_path]; it logs nothing unless it raises, and then
    at most the one ERROR record of the decode error. *)
Theorem compile_docs_only_reads {imports : Imports}
    (self : DocumentProcessor) (w : World) :
  let '(out, self', w') := __compile_docs self w in
  fs w' = fs w /\ env w' = env w /\ file_path self' = file_path self /\
  (w' = w \/
   exists e e', out = Raise e' /\ w' = emit (Logged ERROR (LogExn e)) w).
Proof.
  rewrite compile_docs_cases.
  destruct (open_read w (file_path self)) as [c|e]; [|repeat split; auto].
  destruct (json_load c) as [a|e].
  - rewrite after_load_cases.
    destruct (iterate a) as [els|e]; [|repeat split; auto].
    destruct (comprehension truncated_fulltext els) as [d|e]; [|repeat split; auto].
    destruct (comprehension as_str d); repeat split; auto.
  - destruct (is_JSONDecodeError e); repeat split; auto.
    right. eauto.
Qed.

(** X12. A compile that returns can be repeated: the world is as before,
    and compiling again, from the object as the first compile left it,
    returns the same corpus and leaves the same object.  What [docs] held
    before plays no part. *)
Theorem compile_docs_repeatable {imports : Imports}
    (self self' : DocumentProcessor) (w w' : World) (txt : pystr) :
  __compile_docs self w = (Return txt, self', w') ->
  w' = w /\
  __compile_docs self' w = (Return txt, self', w) /\
  forall d, __compile_docs (mkProcessor (file_path self) d) w = (Return txt, self', w).
Proof.
  assert (Hany : forall s1 s2 out s1' w1',
            file_path s1 = file_path s2 ->
            __compile_docs s1 w = (Return out, s1', w1') ->
            w1' = w /\ file_path s1' = file_path s1 /\
            __compile_docs s2 w = (Return out, s1', w)).
  { intros s1 s2 out s1' w1' Hpath. rewrite !compile_docs_cases, <- Hpath.
    destruct (open_read w (file_path s1)) as [c|e]; [|discriminate].
    destruct (json_load c) as [a|e];
      [|destruct (is_JSONDecodeError e); discriminate].
    rewrite !after_load_cases, <- Hpath.
    destruct (iterate a) as [els|e]; [|discriminate].
    destruct (comprehension truncated_fulltext els) as [d|e]; [|discriminate].
    destruct (comprehension as_str d); [|discriminate].
    intros H. injection H as <- <- <-. auto. }
  intros H.
  destruct (Hany self self _ _ _ eq_refl H) as (-> & Hpath & _).
  split; [reflexivity|]. split.
  - apply (Hany self self' _ _ _ (eq_sym Hpath) H).
  - intros d. apply (Hany self (mkProcessor (file_path self) d) _ _ _ eq_refl H).
Qed.

Lemma compile_docs_repeatable_witness :
  let contents := js "[{'fulltext': 'One.  '}, {'fulltext': 'Two. '}]" in
  let w := Examples.world [(str "post_process_data/a.json", contents)] [] in
  let self := mkProcessor (str "post_process_data/a.json") [VStr (str "old")] in
  let self' := mkProcessor (str "post_process_data/a.json")
                           [VStr (str "One.  "); VStr (str "Two. ")] in
  @__compile_docs Examples.imports self w = (Return (str "One.  .Two."), self', w) /\
  @__compile_docs Examples.imports self' w = (Return (str "One.  .Two."), self', w).
Proof.
  intros contents w self self'. split; [reflexivity|].
  exact (proj1 (proj2 (@compile_docs_repeatable Examples.imports self self' w w
                         (str "One.  .Two.") eq_refl))).
Defined.

(** ** The cleanup of the corpus *)

Module CleanupFacts.
Import SubFacts PatternFacts.

Lemma visible_app a b : visible (a ++ b) = visible a ++ visible b.
Proof. unfold visible. apply filter_app. Qed.

Lemma visible_space m : forallb isspace m = true -> visible m = [].
Proof.
  induction m as [|c m IH]; [reflexivity|]. simpl.
  intros H. apply andb_true_iff in H as [Hc Hm]. rewrite Hc. simpl. now apply IH.
Qed.

Lemma strips_visible prev s out :
  Strips prev s out -> visible out = visible s /\ length out <= length s.
Proof.
  induction 1 as [prev | prev c s out _ [IHv IHl] | m r out _ Hm _ _ [IHv IHl]].
  - split; [reflexivity | lia].
  - split; [|simpl; lia]. unfold visible in *. simpl. now rewrite IHv.
  - split.
    + rewrite visible_app, (visible_space m Hm). exact IHv.
    + rewrite length_app. lia.
Qed.

(** On a text without matches the substitution changes nothing. *)
Lemma sub_from_clean : forall s prev, no_match_left prev s -> sub_from prev s = s.
Proof.
  induction s as [|c s IH]; intros prev Hclean; [reflexivity|].
  pose proof (Hclean [] (c :: s) eq_refl) as Hhead.
  change (Re.last_char prev []) with prev in Hhead.
  rewrite (sub_from_keep _ _ _ Hhead). f_equal. apply IH.
  intros p q Heq. specialize (Hclean (c :: p) q).
  rewrite ReFacts.last_char_cons in Hclean. apply Hclean. simpl. now rewrite Heq.
Qed.

Lemma join_length_bound k sep parts :
  Forall (fun p : pystr => length p <= k) parts ->
  length (Text.join sep parts) <= length parts * (k + length sep).
Proof.
  intros Hall.
  assert (H : parts <> [] ->
              length (Text.join sep parts) + length sep
              <= length parts * (k + length sep)).
  { induction Hall as [|p parts Hp Hall IH]; [congruence|]. intros _.
    destruct parts as [|q parts].
    - cbn [Text.join length]. lia.
    - change (Text.join sep (p :: q :: parts))
        with (p ++ sep ++ Text.join sep (q :: parts)).
      rewrite !length_app.
      assert (Hq : q :: parts <> []) by discriminate. specialize (IH Hq).
      change (length (p :: q :: parts)) with (S (length (q :: parts))). lia. }
  destruct parts as [|p parts]; [simpl; lia|].
  assert (Hne : p :: parts <> []) by discriminate. specialize (H Hne). lia.
Qed.

End CleanupFacts.

(** X13. The cleanup loses no visible character: after the substitution
    of [__compile_docs] the characters that are not white space are the
    same, in the same order, and the text is no longer than before. *)
Theorem cleanup_keeps_visible_text (s : pystr) :
  visible (Re.sub pattern [] s) = visible s /\
  length (Re.sub pattern [] s) <= length s.
Proof. apply (CleanupFacts.strips_visible None). apply SubFacts.sub_strips. Qed.

(** X14. The cleanup is idempotent: applied to its own result it changes
    nothing. *)
Theorem cleanup_idempotent (s : pystr) :
  Re.sub pattern [] (Re.sub pattern [] s) = Re.sub pattern [] s.
Proof.
  rewrite (PatternFacts.sub_is_sub_from (Re.sub pattern [] s)).
  apply CleanupFacts.sub_from_clean. rewrite PatternFacts.sub_is_sub_from.
  now apply (SubFacts.sub_from_no_match_left (length s)).
Qed.

(** X15. The corpus is bounded by the number of articles: compiled from an
    array of [n] records it has at most [150001 * n] characters, 150,000
    for each text and one for each separator. *)
Theorem compile_docs_corpus_length {imports : Imports}
    (self self' : DocumentProcessor) (w w' : World) (contents corpus : pystr)
    (elements : list value) (texts : list pystr) :
  fs w (file_path self) = Some (File contents) ->
  json_load contents = Return (VList elements) ->
  Forall2 article elements texts ->
  __compile_docs self w = (Return corpus, self', w') ->
  (Z.of_nat (length corpus) <= 150001 * Z.of_nat (length elements))%Z.
Proof.
  intros Hfile Hparse Harts Hc.
  assert (Hload : load_articles self w = (Return (VList elements), self, w)).
  { rewrite (load_articles_file self w contents Hfile). now rewrite Hparse. }
  rewrite (compile_docs_loaded self w _ Hload) in Hc.
  pose proof (after_load_articles self w elements texts Harts) as Hal.
  cbv zeta in Hal.
  assert (HkZ : Z.of_nat (Z.to_nat _openai_token_limit) = 150000%Z)
    by (apply Z2Nat.id; unfold _openai_token_limit; lia).
  revert Hal HkZ. generalize (Z.to_nat _openai_token_limit). intros k Hal HkZ.
  rewrite Hal in Hc. injection Hc as <- _ _.
  rewrite (Forall2_length Harts).
  pose proof (proj2 (CleanupFacts.strips_visible None _ _
                       (SubFacts.sub_strips
                          (Text.join (str ".") (map (firstn k) texts))))) as Hsub.
  pose proof (CleanupFacts.join_length_bound k (str ".") (map (firstn k) texts))
    as Hjoin.
  rewrite length_map in Hjoin.
  assert (Hall : Forall (fun p : pystr => length p <= k) (map (firstn k) texts)).
  { apply Forall_forall. intros p Hp. apply in_map_iff in Hp as (t & <- & _).
    apply firstn_le_length. }
  specialize (Hjoin Hall). change (length (str ".")) with 1 in Hjoin.
  apply Nat2Z.inj_le in Hsub. apply Nat2Z.inj_le in Hjoin.
  rewrite Nat2Z.inj_mul, Nat2Z.inj_add, HkZ in Hjoin.
  change (Z.of_nat 1) with 1%Z in Hjoin.
  eapply Z.le_trans; [exact Hsub|]. eapply Z.le_trans; [exact Hjoin|].
  unfold pystr. lia.
Qed.

Lemma compile_docs_corpus_length_witness :
  let contents := js "[{'fulltext': 'One.  '}, {'fulltext': 'Two. '}]" in
  let w := Examples.world [(str "post_process_data/a.json", contents)] [] in
  let self := mkProcessor (str "post_process_data/a.json") [] in
  fs w (file_path self) = Some (File contents) /\
  @json_load Examples.imports contents
    = Return (VList [VDict [(str "fulltext", VStr (str "One.  "))];
                     VDict [(str "fulltext", VStr (str "Two. "))]]) /\
  fst (fst (@__compile_docs Examples.imports self w)) = Return (str "One.  .Two.") /\
  (Z.of_nat (length (str "One.  .Two.")) <= 150001 * 2)%Z.
Proof.
  intros contents w self. split; [reflexivity|]. split; [reflexivity|].
  split; [reflexivity|].
  assert (Harts : Forall2 article
            [VDict [(str "fulltext", VStr (str "One.  "))];
             VDict [(str "fulltext", VStr (str "Two. "))]]
            [str "One.  "; str "Two. "]).
  { repeat constructor; eexists; split; reflexivity. }
  exact (@compile_docs_corpus_length Examples.imports self _ w w contents
           (str "One.  .Two.") _ _ eq_refl eq_refl Harts eq_refl).
Defined.

(** ** Retrieval and the chunks it indexes *)

Module RetrievalFacts.
Import LangChain Windows.

(** [strip] returns what it leaves unchanged. *)
Lemma lstrip_fixed s :
  match s with [] => True | c :: _ => isspace c = false end -> lstrip s = s.
Proof. destruct s as [|c s]; [reflexivity|]. simpl. now intros ->. Qed.

Lemma lstrip_lstrip s : lstrip (lstrip s) = lstrip s.
Proof.
  apply lstrip_fixed. destruct (lstrip s) as [|c r] eqn:E; [exact I|].
  now apply SplitTextFacts.lstrip_head in E.
Qed.

Lemma lstrip_suffix s : exists pre, s = pre ++ lstrip s.
Proof.
  induction s as [|c s (pre & IH)]; [now exists []|]. simpl.
  destruct (isspace c); [|now exists []].
  exists (c :: pre). simpl. now rewrite <- IH.
Qed.

Lemma strip_stripped s : strip (strip s) = strip s.
Proof.
  unfold strip, rstrip.
  set (t := lstrip s). set (u := lstrip (rev t)).
  assert (Hl : lstrip (rev u) = rev u).
  { apply lstrip_fixed. destruct (rev u) as [|c o] eqn:Eo; [exact I|].
    destruct (lstrip_suffix (rev t)) as (pre & Hpre). fold u in Hpre.
    apply (f_equal (@rev ascii)) in Hpre.
    rewrite rev_involutive, rev_app_distr, Eo in Hpre.
    unfold t in Hpre. simpl in Hpre.
    now apply SplitTextFacts.lstrip_head in Hpre. }
  rewrite Hl, rev_involutive. unfold u. now rewrite lstrip_lstrip.
Qed.

Lemma render_chunk_any sep c windows :
  In c (render sep windows) ->
  exists w, In w windows /\ c = strip (Text.join sep w) /\ c <> [].
Proof.
  unfold render. intros H. apply in_flat_map in H as (w & Hw & Hc).
  exists w. split; [exact Hw|]. unfold join_docs in Hc.
  destruct (strip (Text.join sep w)) as [|x r] eqn:E; simpl in Hc; [contradiction|].
  destruct Hc as [<-|[]]. split; [reflexivity | discriminate].
Qed.

(** The splitter of [retrieve_docs] always returns. *)
Lemma split_text_returns text :
  exists windows,
    split_text splitter text = Return (render [newline; newline] windows).
Proof.
  assert (Hoverlap : (0 <= chunk_overlap splitter)%Z) by (simpl; lia).
  destruct (SplitterFacts.windows_from_spec splitter [newline; newline] Hoverlap
              (split_text_with_regex text [newline; newline]) [])
    as (E & ws & Hw & _).
  { apply SplitTextFacts.split_pieces_nonempty. }
  { constructor. }
  { right. simpl. lia. }
  exists (E :: ws). unfold split_text, merge_splits.
  rewrite SplitterFacts.merge_loop_windows.
  change (separator splitter) with [newline; newline].
  change 0%Z with (jlen [newline; newline] []). simpl app in Hw. now rewrite Hw.
Qed.

(** A corpus that fits one chunk is joined as one window. *)
Lemma split_text_short text :
  (len text <= 1000)%Z ->
  split_text splitter text
  = Return (render [newline; newline]
              [split_text_with_regex text [newline; newline]]).
Proof.
  intros Hlen. unfold split_text, merge_splits.
  rewrite SplitterFacts.merge_loop_windows.
  change (separator splitter) with [newline; newline].
  change 0%Z with (jlen [newline; newline] []).
  rewrite SplitterFacts.windows_from_one; [reflexivity|].
  assert (Hsep : [newline; newline] <> ([] : pystr)) by discriminate.
  pose proof (SplitTextFacts.split_pieces_length text _ Hsep) as H.
  change (chunk_size splitter) with 1000%Z. simpl app. lia.
Qed.

Section Stages.
Context {imports : Imports} {store : VectorStore}.

(** [retrieve_docs] stage by stage. *)
Lemma retrieve_docs_cases query self w :
  retrieve_docs query self w
  = match __compile_docs self w with
    | (Raise e, s, w1) => (Raise e, s, w1)
    | (Return txt, s, w1) =>
        match split_text splitter txt with
        | Raise e => (Raise e, s, w1)
        | Return chunks =>
            let docs := firstn 2 (map (fun doc => mkDocument doc []) chunks) in
            let w2 := emit (Logged INFO (LogText (str "Generating vector store..."))) w1 in
            match OpenAIEmbeddings (getenv w1 (str "OPENAI_API_KEY")) with
            | Raise e => (Raise e, s, w2)
            | Return embedding =>
                match from_documents docs embedding with
                | Raise e => (Raise e, s, emit (Indexed docs) w2)
                | Return ix =>
                    (similarity_search ix query top_k_default, s,
                     emit (Queried query top_k_default) (emit (Indexed docs) w2))
                end
            end
        end
    end.
Proof.
  unfold retrieve_docs. unfold bind at 1.
  destruct (__compile_docs self w) as [[[txt|e] s] w1]; [|reflexivity].
  unfold bind at 1. unfold lift at 1.
  destruct (split_text splitter txt) as [chunks|e]; [|reflexivity].
  unfold bind at 1. unfold __v_store.
  unfold bind, do_emit, get_world, lift, ret, get_relevant_documents.
  cbv beta iota zeta.
  change (getenv (emit (Logged INFO (LogText (str "Generating vector store..."))) w1)
                 (str "OPENAI_API_KEY"))
    with (getenv w1 (str "OPENAI_API_KEY")).
  destruct (OpenAIEmbeddings _) as [embedding|e]; [|reflexivity].
  destruct (from_documents _ _) as [ix|e]; [|reflexivity].
  cbn [fst snd]. now destruct (similarity_search ix query top_k_default).
Qed.

End Stages.

End RetrievalFacts.

(** X16. When the corpus compiles, the splitting returns, and the vector
    store can fail in two places.  When constructing the embeddings fails,
    as it does without an API key, [retrieve_docs] raises that error after
    the log record and the index is never asked for.  When the embeddings
    are constructed and building the index fails, [retrieve_docs] raises
    that error after the index was asked for the first two chunks.  Either
    way [docs] already holds the new articles and no query is sent. *)
Theorem retrieve_docs_index_failure
    {imports : Imports} {store : VectorStore}
    (query txt : pystr) (self self' : DocumentProcessor) (w w1 : World) :
  __compile_docs self w = (Return txt, self', w1) ->
  exists chunks,
    LangChain.split_text splitter txt = Return chunks /\
    let docs := map (fun doc => mkDocument doc []) (firstn 2 chunks) in
    let logged := Logged INFO (LogText (str "Generating vector store...")) in
    let key := getenv w1 (str "OPENAI_API_KEY") in
    forall e,
      (OpenAIEmbeddings key = Raise e ->
       retrieve_docs query self w
       = (Raise e, self', mkWorld (fs w1) (env w1) (trace w1 ++ [logged]))) /\
      (forall embedding,
         OpenAIEmbeddings key = Return embedding ->
         from_documents docs embedding = Raise e ->
         retrieve_docs query self w
         = (Raise e, self',
            mkWorld (fs w1) (env w1) (trace w1 ++ [logged; Indexed docs]))).
Proof.
  intros Hc. destruct (RetrievalFacts.split_text_returns txt) as (windows & Hs).
  exists (Windows.render [newline; newline] windows). split; [exact Hs|].
  intros docs logged key e. subst docs logged key.
  rewrite RetrievalFacts.retrieve_docs_cases, Hc, Hs.
  cbv zeta. rewrite !firstn_map. split.
  - intros ->. reflexivity.
  - intros embedding -> ->.
    unfold emit. cbn [fs env trace]. rewrite <- app_assoc. reflexivity.
Qed.

Lemma retrieve_docs_index_failure_witness :
  let contents := js "[{'fulltext': 'One.  '}, {'fulltext': 'Two. '}]" in
  let file := str "post_process_data/a.json" in
  let no_key := Examples.world [(file, contents)] [] in
  let empty_key := Examples.world [(file, contents)] [(str "OPENAI_API_KEY", [])] in
  let self := mkProcessor file [] in
  let self' := mkProcessor file [VStr (str "One.  "); VStr (str "Two. ")] in
  let logged := Logged INFO (LogText (str "Generating vector store...")) in
  @__compile_docs Examples.imports self no_key
  = (Return (str "One.  .Two."), self', no_key) /\
  @__compile_docs Examples.imports self empty_key
  = (Return (str "One.  .Two."), self', empty_key) /\
  @retrieve_docs Examples.imports Examples.substring_store (str "Two") self no_key
  = (Raise (LibraryError (str "ValidationError")), self',
     mkWorld (fs no_key) (env no_key) [logged]) /\
  @retrieve_docs Examples.imports Examples.substring_store (str "Two") self empty_key
  = (Raise (LibraryError (str "AuthenticationError")), self',
     mkWorld (fs empty_key) (env empty_key)
       [logged; Indexed [mkDocument (str "One.  .Two.") []]]).
Proof.
  intros contents file no_key empty_key self self' logged.
  split; [reflexivity|]. split; [reflexivity|]. split.
  - destruct (@retrieve_docs_index_failure Examples.imports Examples.substring_store
                (str "Two") (str "One.  .Two.") self self' no_key no_key eq_refl)
      as (chunks & Hs & H).
    exact (proj1 (H (LibraryError (str "ValidationError"))) eq_refl).
  - destruct (@retrieve_docs_index_failure Examples.imports Examples.substring_store
                (str "Two") (str "One.  .Two.") self self' empty_key empty_key eq_refl)
      as (chunks & Hs & H).
    vm_compute in Hs. injection Hs as <-.
    exact (proj2 (H (LibraryError (str "AuthenticationError"))) [] eq_refl eq_refl).
Defined.

Module ChunkFacts.
Import LangChain Windows RetrievalFacts.

Lemma strip_head s c o : strip s = c :: o -> isspace c = false.
Proof.
  intros H. pose proof (strip_stripped s) as Hs. rewrite H in Hs.
  unfold strip in Hs.
  destruct (lstrip (c :: o)) as [|x r] eqn:E.
  - unfold rstrip in Hs. simpl in Hs. discriminate.
  - pose proof (SplitTextFacts.lstrip_head _ _ _ E) as Hx.
    simpl in E. destruct (isspace c) eqn:Hc; [|reflexivity].
    exfalso.
    assert (Hlen : length (rstrip (x :: r)) <= length (x :: r)).
    { unfold rstrip. rewrite length_rev.
      pose proof (SplitTextFacts.lstrip_length (rev (x :: r))) as H1.
      now rewrite length_rev in H1. }
    pose proof (SplitTextFacts.lstrip_length o) as H2. rewrite E in H2.
    rewrite Hs in Hlen. simpl in *. lia.
Qed.

Lemma strip_last s c o : rev (strip s) = c :: o -> isspace c = false.
Proof.
  unfold strip, rstrip. rewrite rev_involutive.
  apply SplitTextFacts.lstrip_head.
Qed.

(** A text is its stripped form between two margins. *)
Lemma strip_between s : exists l r, s = l ++ strip s ++ r.
Proof.
  destruct (lstrip_suffix s) as (l & Hl).
  destruct (lstrip_suffix (rev (lstrip s))) as (pre & Hpre).
  exists l, (rev pre). unfold strip, rstrip.
  rewrite <- rev_app_distr, <- Hpre, rev_involutive. exact Hl.
Qed.

Lemma lstrip_mid m c o Y : forall X,
  m = c :: o -> isspace c = false ->
  exists X', lstrip (X ++ m ++ Y) = X' ++ m ++ Y.
Proof.
  intros X -> Hc. induction X as [|x X (X' & IH)].
  - exists []. simpl. now rewrite Hc.
  - simpl. destruct (isspace x).
    + exists X'. exact IH.
    + now exists (x :: X).
Qed.

(** Stripping keeps a piece that starts and ends with a visible
    character. *)
Lemma strip_keeps_middle X m Y c o c' o' :
  m = c :: o -> isspace c = false ->
  rev m = c' :: o' -> isspace c' = false ->
  exists X' Y', strip (X ++ m ++ Y) = X' ++ m ++ Y'.
Proof.
  intros Hm Hc Hr Hc'. unfold strip, rstrip.
  destruct (lstrip_mid m c o Y X Hm Hc) as (X' & ->).
  rewrite !rev_app_distr.
  destruct (lstrip_mid (rev m) c' o' (rev X') (rev Y) Hr Hc') as (Y'' & H).
  rewrite <- app_assoc, H. exists X', (rev Y'').
  now rewrite !rev_app_distr, !rev_involutive, <- app_assoc.
Qed.

Lemma join_contains sep p : forall w,
  In p w -> exists a b, Text.join sep w = a ++ p ++ b.
Proof.
  induction w as [|q w IH]; intros Hin; [contradiction|].
  destruct w as [|q' w'].
  - destruct Hin as [->|[]]. exists [], []. simpl. now rewrite app_nil_r.
  - change (Text.join sep (q :: q' :: w'))
      with (q ++ sep ++ Text.join sep (q' :: w')).
    destruct Hin as [->|Hin].
    + now exists [], (sep ++ Text.join sep (q' :: w')).
    + destruct (IH Hin) as (a & b & ->).
      exists (q ++ sep ++ a), b. now rewrite <- !app_assoc.
Qed.

(** Every piece ends up in a window. *)
Lemma windows_cover cfg sl : forall splits cur total ws,
  windows_from cfg sl splits cur total = Return ws ->
  forall p, In p (cur ++ splits) -> exists w, In w ws /\ In p w.
Proof.
  induction splits as [|d splits IH]; intros cur total ws Hw p Hp.
  - cbn [windows_from] in Hw. injection Hw as <-. rewrite app_nil_r in Hp.
    exists cur. split; [now left | exact Hp].
  - cbn [windows_from] in Hw.
    assert (Hadd : forall cur' total' ws',
              windows_from cfg sl splits (cur' ++ [d]) total' = Return ws' ->
              In p (cur' ++ d :: splits) -> exists w, In w ws' /\ In p w).
    { intros cur' total' ws' Hw' Hp'. apply (IH _ _ _ Hw').
      now rewrite <- app_assoc. }
    destruct (Z.gtb _ _); [|now apply (Hadd _ _ _ Hw)].
    destruct (Nat.ltb 0 (length cur)); [|now apply (Hadd _ _ _ Hw)].
    destruct (keep_popping cfg sl (len d) total cur) as [[total' cur']|e];
      [|discriminate].
    destruct (windows_from cfg sl splits (cur' ++ [d]) _) as [ws'|e] eqn:Hrec;
      [|discriminate].
    injection Hw as <-. apply in_app_or in Hp as [Hp|Hp].
    + exists cur. split; [now left | exact Hp].
    + destruct (Hadd _ _ _ Hrec) as (w & Hin & Hpw).
      { apply in_or_app. now right. }
      exists w. split; [now right | exact Hpw].
Qed.

End ChunkFacts.

(** X17. A corpus of at most 1000 characters is one document, and a
    corpus of white space only, the empty one of an empty array included,
    is none.  When the embeddings are constructed, the index is asked for
    that at most one document, and then the query is sent or nothing more
    happens; when constructing them fails, the index is not asked for at
    all and the log record is the last thing done. *)
Theorem retrieve_docs_short_corpus
    {imports : Imports} {store : VectorStore}
    (query txt : pystr) (self self' : DocumentProcessor) (w w1 : World) :
  __compile_docs self w = (Return txt, self', w1) ->
  (LangChain.len txt <= 1000)%Z ->
  exists docs,
    length docs <= 1 /\
    (docs = [] <-> forallb isspace txt = true) /\
    let logged := Logged INFO (LogText (str "Generating vector store...")) in
    match OpenAIEmbeddings (getenv w1 (str "OPENAI_API_KEY")) with
    | Raise _ =>
        trace (snd (retrieve_docs query self w)) = trace w1 ++ [logged]
    | Return _ =>
        exists tail,
          trace (snd (retrieve_docs query self w))
          = trace w1 ++ [logged; Indexed docs] ++ tail /\
          (tail = [] \/ tail = [Queried query 6])
    end.
Proof.
  intros Hc Hlen.
  rewrite RetrievalFacts.retrieve_docs_cases, Hc.
  rewrite (RetrievalFacts.split_text_short txt Hlen), render_one.
  assert (Hspace : forallb isspace
                     (Text.join [newline; newline]
                        (LangChain.split_text_with_regex txt [newline; newline]))
                   = forallb isspace txt)
    by (apply SplitTextFacts.pieces_all_space; [discriminate | reflexivity]).
  pose proof (SplitTextFacts.strip_nil
                (Text.join [newline; newline]
                   (LangChain.split_text_with_regex txt [newline; newline]))) as Hnil.
  rewrite Hspace in Hnil.
  assert (Hstages : forall docs,
    match OpenAIEmbeddings (getenv w1 (str "OPENAI_API_KEY")) with
    | Raise _ =>
        trace (snd
          (let w2 := emit (Logged INFO (LogText (str "Generating vector store..."))) w1 in
           match OpenAIEmbeddings (getenv w1 (str "OPENAI_API_KEY")) with
           | Raise e => (Raise e, self', w2)
           | Return embedding =>
               match from_documents docs embedding with
               | Raise e => (Raise e, self', emit (Indexed docs) w2)
               | Return ix =>
                   (similarity_search ix query top_k_default, self',
                    emit (Queried query top_k_default) (emit (Indexed docs) w2))
               end
           end))
        = trace w1 ++ [Logged INFO (LogText (str "Generating vector store..."))]
    | Return _ =>
        exists tail,
          trace (snd
            (let w2 := emit (Logged INFO (LogText (str "Generating vector store..."))) w1 in
             match OpenAIEmbeddings (getenv w1 (str "OPENAI_API_KEY")) with
             | Raise e => (Raise e, self', w2)
             | Return embedding =>
                 match from_documents docs embedding with
                 | Raise e => (Raise e, self', emit (Indexed docs) w2)
                 | Return ix =>
                     (similarity_search ix query top_k_default, self',
                      emit (Queried query top_k_default) (emit (Indexed docs) w2))
                 end
             end))
          = trace w1
            ++ [Logged INFO (LogText (str "Generating vector store...")); Indexed docs]
            ++ tail /\
          (tail = [] \/ tail = [Queried query 6])
    end).
  { intros docs. cbv zeta.
    destruct (OpenAIEmbeddings _) as [embedding|e]; [|reflexivity].
    destruct (from_documents docs embedding) as [ix|e].
    - exists [Queried query 6]. cbn [snd emit trace].
      rewrite <- !app_assoc. split; [reflexivity | now right].
    - exists []. cbn [snd emit trace].
      rewrite <- !app_assoc. split; [reflexivity | now left]. }
  destruct (strip _) as [|x r]; cbv zeta; cbn [map firstn].
  - exists []. split; [simpl; lia|].
    split; [split; [intros _; now apply Hnil | reflexivity]|].
    apply (Hstages []).
  - exists [mkDocument (x :: r) []]. split; [simpl; lia|]. split.
    + split; [discriminate|]. intros H. apply Hnil in H. discriminate.
    + apply (Hstages [mkDocument (x :: r) []]).
Qed.

Lemma retrieve_docs_short_corpus_witness :
  let file := str "post_process_data/a.json" in
  let logged := Logged INFO (LogText (str "Generating vector store...")) in
  let with_key := Examples.world [(file, str "[]")] [(str "OPENAI_API_KEY", str "sk")] in
  let no_key := Examples.world [(file, js "[{'fulltext': 'One.'}]")] [] in
  let self := mkProcessor file [] in
  let self' := mkProcessor file [VStr (str "One.")] in
  @__compile_docs Examples.imports self with_key = (Return [], self, with_key) /\
  @__compile_docs Examples.imports self no_key = (Return (str "One."), self', no_key) /\
  (exists tail,
     trace (snd (@retrieve_docs Examples.imports Examples.substring_store
                   (str "needle") self with_key))
     = [logged; Indexed []] ++ tail) /\
  trace (snd (@retrieve_docs Examples.imports Examples.substring_store
                (str "needle") self no_key))
  = [logged].
Proof.
  intros file logged with_key no_key self self'.
  split; [reflexivity|]. split; [reflexivity|]. split.
  - destruct (@retrieve_docs_short_corpus Examples.imports Examples.substring_store
                (str "needle") [] self self with_key with_key eq_refl)
      as (docs & _ & Hblank & Htrace).
    + vm_compute. discriminate.
    + destruct Htrace as (tail & Htrace & _).
      exists tail. rewrite Htrace. now rewrite (proj2 Hblank eq_refl).
  - destruct (@retrieve_docs_short_corpus Examples.imports Examples.substring_store
                (str "needle") (str "One.") self self' no_key no_key eq_refl)
      as (docs & _ & _ & Htrace).
    + vm_compute. discriminate.
    + exact Htrace.
Defined.

(** X18. No chunk is empty and no chunk starts or ends with white space:
    stripping a chunk leaves it as it is.  A document handed to the index
    therefore always has visible text. *)
Theorem split_text_chunks_are_stripped (text : pystr) (chunks : list pystr) (c : pystr) :
  LangChain.split_text splitter text = Return chunks ->
  In c chunks ->
  c <> [] /\ strip c = c /\ visible c <> [].
Proof.
  intros Hs Hc. destruct (RetrievalFacts.split_text_returns text) as (windows & Hw).
  rewrite Hw in Hs. injection Hs as <-.
  apply RetrievalFacts.render_chunk_any in Hc as (w & _ & -> & Hne).
  split; [exact Hne|]. split; [apply RetrievalFacts.strip_stripped|].
  destruct (strip (Text.join [newline; newline] w)) as [|x r] eqn:E; [congruence|].
  apply ChunkFacts.strip_head in E. unfold visible. simpl. rewrite E. discriminate.
Qed.

Lemma split_text_chunks_are_stripped_witness :
  LangChain.split_text splitter (str "  One. " ++ [newline; newline] ++ str " ")
    = Return [str "One."] /\
  strip (str "One.") = str "One.".
Proof.
  split; [reflexivity|].
  exact (proj1 (proj2 (split_text_chunks_are_stripped
                         (str "  One. " ++ [newline; newline] ++ str " ")
                         [str "One."] (str "One.") eq_refl (or_introl eq_refl)))).
Defined.

(** X19. The splitter drops no visible text: every piece of the corpus
    between blank lines that has a visible character occurs, stripped, in
    some chunk.  What [retrieve_docs] leaves out of the index is left out
    by its slice of the first two chunks. *)
Theorem split_text_keeps_every_piece (text : pystr) (chunks : list pystr) (p : pystr) :
  LangChain.split_text splitter text = Return chunks ->
  In p (LangChain.split_text_with_regex text [newline; newline]) ->
  forallb isspace p = false ->
  exists c a b, In c chunks /\ c = a ++ strip p ++ b.
Proof.
  intros Hs Hp Hvis.
  unfold LangChain.split_text, LangChain.merge_splits in Hs.
  rewrite SplitterFacts.merge_loop_windows in Hs.
  change (LangChain.separator splitter) with [newline; newline] in Hs.
  destruct (Windows.windows_from splitter _ _ [] 0) as [ws|e] eqn:Hw;
    [|discriminate].
  injection Hs as <-.
  destruct (ChunkFacts.windows_cover _ _ _ _ _ _ Hw p Hp) as (win & Hwin & Hpw).
  destruct (ChunkFacts.join_contains [newline; newline] p win Hpw) as (a & b & Hj).
  destruct (ChunkFacts.strip_between p) as (l & r & Hpl).
  destruct (strip p) as [|x o] eqn:Ex.
  { apply SplitTextFacts.strip_nil in Ex. congruence. }
  destruct (rev (x :: o)) as [|x' o'] eqn:Er.
  { apply (f_equal (@length ascii)) in Er. rewrite length_rev in Er. discriminate. }
  assert (Hx : isspace x = false) by (eapply ChunkFacts.strip_head; eauto).
  assert (Hx' : isspace x' = false).
  { apply (ChunkFacts.strip_last p x' o'). now rewrite Ex. }
  destruct (ChunkFacts.strip_keeps_middle (a ++ l) (x :: o) (r ++ b) x o x' o'
              eq_refl Hx Er Hx') as (X' & Y' & Hstrip).
  assert (Hjoin : Text.join [newline; newline] win = (a ++ l) ++ (x :: o) ++ r ++ b).
  { rewrite Hj, Hpl. now rewrite <- !app_assoc. }
  exists (X' ++ (x :: o) ++ Y'), X', Y'. split; [|reflexivity].
  unfold Windows.render. apply in_flat_map. exists win. split; [exact Hwin|].
  unfold LangChain.join_docs. rewrite Hjoin, Hstrip.
  destruct X'; simpl; now left.
Qed.

Lemma split_text_keeps_every_piece_witness :
  let text := Examples.paragraph "a" ++ [newline; newline]
              ++ str " b " ++ [newline; newline] ++ Examples.paragraph "c" in
  LangChain.split_text splitter text
    = Return [Examples.paragraph "a" ++ [newline; newline] ++ str " b";
              str "b " ++ [newline; newline] ++ Examples.paragraph "c"] /\
  In (str " b ") (LangChain.split_text_with_regex text [newline; newline]) /\
  exists c a b,
    In c [Examples.paragraph "a" ++ [newline; newline] ++ str " b";
          str "b " ++ [newline; newline] ++ Examples.paragraph "c"] /\
    c = a ++ str "b" ++ b.
Proof.
  intros text.
  assert (Hs : LangChain.split_text splitter text
               = Return [Examples.paragraph "a" ++ [newline; newline] ++ str " b";
                         str "b " ++ [newline; newline] ++ Examples.paragraph "c"])
    by (vm_compute; reflexivity).
  assert (Hp : In (str " b ")
                  (LangChain.split_text_with_regex text [newline; newline]))
    by (vm_compute; right; left; reflexivity).
  split; [exact Hs|]. split; [exact Hp|].
  exact (split_text_keeps_every_piece text _ (str " b ") Hs Hp eq_refl).
Defined.

(** ** Whole words, and the path between construction and compile *)

(** A match that [scan] reports, with the position at which it was found. *)
Lemma scan_match_position p m : forall s skip prev,
  In (Re.Match m) (Re.scan p skip prev s) ->
  exists pre post,
    s = pre ++ m ++ post /\
    Re.match_here p (Re.last_char prev pre) (m ++ post) = Some (m, post).
Proof.
  induction s as [|c s IH]; intros skip prev H; simpl in H; [contradiction|].
  assert (Hrest : forall skip',
            In (Re.Match m) (Re.scan p skip' (Some c) s) ->
            exists pre post,
              c :: s = pre ++ m ++ post /\
              Re.match_here p (Re.last_char prev pre) (m ++ post) = Some (m, post)).
  { intros skip' H'. destruct (IH _ _ H') as (pre & post & -> & Hm).
    exists (c :: pre), post. split; [reflexivity|].
    now rewrite ReFacts.last_char_cons. }
  destruct skip as [|n]; [|eauto].
  destruct (Re.match_here p prev (c :: s)) as [[[|x m'] r]|] eqn:E.
  - destruct H as [H|H]; [discriminate | eauto].
  - destruct H as [H|H]; [|eauto]. injection H as <-.
    pose proof (ReFacts.match_here_prefix _ _ _ _ _ E) as Hs.
    exists [], r. split; [exact Hs|].
    change (Re.last_char prev []) with prev. now rewrite <- Hs.
  - destruct H as [H|H]; [discriminate | eauto].
Qed.

(** X20. Every word returned stands in the lowercased text as a whole
    word: it occurs there with no word character right before it and none
    right after it. *)
Theorem word_frequency_whole_words
    (stop : list pystr) (text : pystr) (top_freq : Z) (w : pystr) :
  In w (__word_frequency stop text top_freq) ->
  exists pre post,
    lower text = pre ++ w ++ post /\
    Re.isword_opt (Re.last_char None pre) = false /\
    Re.isword_opt (hd_error post) = false.
Proof.
  rewrite word_frequency_as_filter. intros Hw.
  apply filter_In in Hw as [Hw _]. apply FrequencyFacts.first_seen_incl in Hw.
  unfold tokenize, Re.findall in Hw. apply in_flat_map in Hw as (g & Hg & Hm).
  destruct g as [c|m]; simpl in Hm; [contradiction|]. destruct Hm as [<-|[]].
  apply scan_match_position in Hg as (pre & post & Heq & Hmatch).
  exists pre, post. split; [exact Heq|].
  unfold word_pattern in Hmatch. cbn [Re.match_here] in Hmatch.
  destruct (xorb (Re.isword_opt (Re.last_char None pre))
                 (Re.isword_opt (hd_error (m ++ post)))) eqn:Hleft; [|discriminate].
  apply ReFacts.repeat_match_inv in Hmatch
    as (m1 & m2 & s2 & Hs & Hm & Hmin & Hall & Hk).
  destruct (xorb (Re.isword_opt (Re.last_char (Re.last_char None pre) m1))
                 (Re.isword_opt (hd_error s2))) eqn:Hright; [|discriminate].
  injection Hk as <- Hpost. rewrite app_nil_r in Hm. subst m1 s2.
  destruct m as [|x m']; [simpl in Hmin; lia|].
  assert (Hx : isword x = true) by (simpl in Hall; now apply andb_true_iff in Hall).
  simpl in Hleft. rewrite Hx in Hleft.
  split; [now destruct (Re.isword_opt (Re.last_char None pre))|].
  assert (Hlast : Re.isword_opt (Re.last_char (Re.last_char None pre) (x :: m')) = true).
  { unfold Re.last_char at 1. destruct (rev (x :: m')) as [|y l] eqn:Er.
    - apply (f_equal (@length ascii)) in Er. rewrite length_rev in Er. discriminate.
    - simpl. rewrite forallb_forall in Hall. apply Hall. apply in_rev.
      rewrite Er. now left. }
  rewrite Hlast in Hright. now destruct (Re.isword_opt (hd_error post)).
Qed.

Lemma word_frequency_whole_words_witness :
  In (str "cat") (__word_frequency [str "the"] (str "The cat, the Cat; a cathedral") 2) /\
  exists pre post,
    lower (str "The cat, the Cat; a cathedral") = pre ++ str "cat" ++ post /\
    Re.isword_opt (Re.last_char None pre) = false /\
    Re.isword_opt (hd_error post) = false.
Proof.
  assert (H : In (str "cat")
                 (__word_frequency [str "the"] (str "The cat, the Cat; a cathedral") 2))
    by (left; reflexivity).
  split; [exact H|].
  exact (word_frequency_whole_words _ _ _ _ H).
Defined.

Lemma startswith_app_l p : forall a b,
  startswith p a = true -> startswith p (a ++ b) = true.
Proof.
  induction p as [|x p IH]; intros a b H; [reflexivity|].
  destruct a as [|y a]; [discriminate|]. simpl in *.
  apply andb_true_iff in H as [Hxy H]. rewrite Hxy. simpl. now apply IH.
Qed.

Lemma contains_cons p y s :
  contains p (y :: s) = startswith p (y :: s) || contains p s.
Proof. reflexivity. Qed.

Lemma contains_app_l p : forall a b,
  contains p a = true -> contains p (a ++ b) = true.
Proof.
  induction a as [|y a IH]; intros b H.
  - cbn [contains] in H. rewrite orb_false_r in H.
    destruct p; [|discriminate]. destruct b; reflexivity.
  - rewrite contains_cons in H. apply orb_true_iff in H as [H|H].
    + change ((y :: a) ++ b) with (y :: (a ++ b)). rewrite contains_cons.
      change (y :: (a ++ b)) with ((y :: a) ++ b).
      now rewrite (startswith_app_l p (y :: a) b H).
    + change ((y :: a) ++ b) with (y :: (a ++ b)). rewrite contains_cons.
      rewrite (IH b H). apply orb_true_r.
Qed.

(** X21. After a rerouted construction [__compile_docs] reads what the
    extraction left at the rerouted path, not the file it was given: when
    the extraction wrote nothing there the compile raises
    [FileNotFoundError], and when what it wrote is not valid JSON the
    [ValueError] names the rerouted path. *)
Theorem compile_reads_rerouted_file {imports : Imports}
    (path dir : pystr) (w : World) (fs' : filesystem) :
  path_exists w path = true ->
  contains (str "post_process_data") path = false ->
  from_xml path (env w) (fs w) = (Return tt, fs') ->
  getenv w (str "COMPILED_DOCS_PATH") = Some dir ->
  let target :=
    OsPath.join dir
      (OsPath.replace (str ".xml") (str ".json") (OsPath.basename path)) in
  let self := mkProcessor target [] in
  exists w',
    construct path w = (Return self, w') /\
    (fs' target = None ->
     __compile_docs self w'
     = (Raise (FileNotFoundError (str "No such file or directory")), self, w')) /\
    (forall contents msg,
       fs' target = Some (File contents) ->
       json_load contents = Raise (JSONDecodeError msg) ->
       __compile_docs self w'
       = (Raise (ValueError (str "Error: " ++ target ++ str " is not a valid json file.")
                            (Some (JSONDecodeError msg))),
          self, emit (Logged ERROR (LogExn (JSONDecodeError msg))) w')).
Proof.
  intros Hexists Hsub Hxml Henv target self.
  exists (set_fs fs' (emit (Extracted path)
            (emit (Logged WARNING (LogText (warning_message path))) w))).
  split; [|split].
  - unfold construct, __init__. rewrite Hexists, Hsub. cbn [negb].
    cbn [env fs emit]. rewrite Hxml. unfold getenv in *. cbn [env set_fs emit].
    now rewrite Henv.
  - intros Hnone. rewrite compile_docs_cases. unfold open_read. cbn [fs set_fs file_path self].
    now rewrite Hnone.
  - intros contents msg Hfile Hparse.
    rewrite compile_docs_cases. unfold open_read. cbn [fs set_fs file_path self].
    now rewrite Hfile, Hparse.
Qed.

Lemma compile_reads_rerouted_file_witness :
  let w := Examples.world [(str "raw/b.xml", str "<x/>")]
                          [(str "COMPILED_DOCS_PATH", str "out")] in
  path_exists w (str "raw/b.xml") = true /\
  getenv w (str "COMPILED_DOCS_PATH") = Some (str "out") /\
  exists w',
    @construct Examples.imports (str "raw/b.xml") w
      = (Return (mkProcessor (str "out/b.json") []), w') /\
    fs w' (str "out/b.json") = Some (File (str "[]")) /\
    fs w' (str "raw/b.json") = None.
Proof.
  intros w. split; [reflexivity|]. split; [reflexivity|].
  destruct (@compile_reads_rerouted_file Examples.imports (str "raw/b.xml")
              (str "out") w _ eq_refl eq_refl eq_refl eq_refl)
    as (w' & Hc & _).
  exists w'. split; [exact Hc|].
  assert (Hw : fst (@construct Examples.imports (str "raw/b.xml") w)
               = Return (mkProcessor (str "out/b.json") [])) by reflexivity.
  assert (Hw' : w' = snd (@construct Examples.imports (str "raw/b.xml") w))
    by (now rewrite Hc).
  subst w'. split; reflexivity.
Defined.

(** X22. A rerouted path counts as compiled only through the directory:
    when [COMPILED_DOCS_PATH] contains ['post_process_data'], so does every
    rerouted path, and a processor built from such a path, once the file
    exists, takes it as it is, without a second extraction. *)
Theorem rerouted_path_is_taken_as_compiled {imports : Imports}
    (path dir : pystr) :
  contains (str "post_process_data") dir = true ->
  let target :=
    OsPath.join dir
      (OsPath.replace (str ".xml") (str ".json") (OsPath.basename path)) in
  contains (str "post_process_data") target = true /\
  forall w, path_exists w target = true ->
            construct target w = (Return (mkProcessor target []), w).
Proof.
  intros Hdir target.
  assert (Hname : no_slash (OsPath.replace (str ".xml") (str ".json")
                              (OsPath.basename path)) = true).
  { apply OsPathFacts.replace_from_no_slash; [reflexivity|].
    apply OsPathFacts.basename_no_slash. }
  assert (Htarget : contains (str "post_process_data") target = true).
  { unfold target. destruct (OsPathFacts.join_under dir _ Hname) as [-> | ->];
      now apply contains_app_l. }
  split; [exact Htarget|].
  intros w Hexists. unfold construct, __init__. now rewrite Hexists, Htarget.
Qed.

Lemma rerouted_path_is_taken_as_compiled_witness :
  contains (str "post_process_data") (str "data/post_process_data") = true /\
  contains (str "post_process_data")
    (OsPath.join (str "data/post_process_data")
       (OsPath.replace (str ".xml") (str ".json") (OsPath.basename (str "raw/b.xml"))))
  = true.
Proof.
  split; [reflexivity|].
  exact (proj1 (@rerouted_path_is_taken_as_compiled Examples.imports
                  (str "raw/b.xml") (str "data/post_process_data") eq_refl)).
Defined.

(** ** Hyponyms *)

Lemma extract_hyponyms_flat_map {wn : WordNet} (word : pystr) :
  extract_hyponyms word
  = flat_map (fun s => flat_map (fun h => map lemma_name (synset_lemmas h))
                                (synset_hyponyms s))
             (wn_synsets word).
Proof.
  unfold extract_hyponyms.
  rewrite (fold_left_ext _
             (fun acc s => acc ++ flat_map (fun h => map lemma_name (synset_lemmas h))
                                           (synset_hyponyms s)))
    by (intros; apply hyponym_loop).
  now rewrite fold_left_append.
Qed.

(** X23. [extract_hyponyms] goes one level down and no further: a name is
    returned exactly when it is the name of a lemma of a direct hyponym of
    a sense-set of the word.  So a word whose sense-sets have no hyponyms,
    a leaf of the database, gives the empty list although it has senses
    and lemmas of its own. *)
Theorem extract_hyponyms_direct_hyponyms_only {wn : WordNet} (word : pystr) :
  (forall name,
     In name (extract_hyponyms word) <->
     exists s h l,
       In s (wn_synsets word) /\ In h (synset_hyponyms s) /\
       In l (synset_lemmas h) /\ lemma_name l = name) /\
  ((forall s, In s (wn_synsets word) -> synset_hyponyms s = []) ->
   extract_hyponyms word = []).
Proof.
  rewrite extract_hyponyms_flat_map. split.
  - intros name. rewrite in_flat_map. split.
    + intros (s & Hs & Hn). apply in_flat_map in Hn as (h & Hh & Hn).
      apply in_map_iff in Hn as (l & Hl & Hin). eauto 8.
    + intros (s & h & l & Hs & Hh & Hl & Hn). exists s. split; [exact Hs|].
      apply in_flat_map. exists h. split; [exact Hh|].
      apply in_map_iff. eauto.
  - intros Hleaf. induction (wn_synsets word) as [|s l IH]; [reflexivity|].
    cbn [flat_map]. rewrite (Hleaf s (or_introl eq_refl)). simpl.
    apply IH. intros s' Hs'. apply Hleaf. now right.
Qed.

Lemma extract_hyponyms_direct_hyponyms_only_witness :
  (forall s, In s (@wn_synsets Examples.wordnet (str "rock")) ->
             @synset_hyponyms Examples.wordnet s = []) /\
  @wn_synsets Examples.wordnet (str "rock") = [Examples.rock_n_01] /\
  @extract_hyponyms Examples.wordnet (str "rock") = [].
Proof.
  assert (H : forall s, In s (@wn_synsets Examples.wordnet (str "rock")) ->
                        @synset_hyponyms Examples.wordnet s = [])
    by (intros s [<-|[]]; reflexivity).
  split; [exact H|]. split; [reflexivity|].
  exact (proj2 (@extract_hyponyms_direct_hyponyms_only Examples.wordnet (str "rock")) H).
Defined.
